(** * jstack [IO]: the room-scoped publish relay of [server/io.ts]

    A shallow embedding of the class [IO] (constructor, [formatRoomName],
    [emit], [to], [getClientsInRoom], [close]) together with the fragment of
    the ECMAScript runtime its body calls: truthiness of strings, template
    strings, [JSON.stringify] and, for the consumers of the wire format,
    [JSON.parse].

    Conventions.
    - The names the relay handles itself (rooms, the prefix, keys, log
      messages) are [string]s.  What goes through [JSON.stringify], the
      event name, the strings of the data and the message, is a [jsstring]:
      the sequence of the 16-bit code units.
    - A Number is a binary64 floating-point number, given by its sign, its
      mantissa and its exponent.
    - [await]ed calls are run to completion: one method call is one
      transition of the instance, calls on one instance do not interleave.
    - The Redis client and the logger are collaborators.  The store is an
      abstract state with two operations that may fail; every call made to
      the store or to the logger is recorded, in order, in the list of
      effects of the method call. *)

From Stdlib Require Import String Ascii List ZArith NArith Bool Lia.
Import ListNotations.

#[local] Open Scope string_scope.
#[local] Open Scope list_scope.
#[local] Open Scope Z_scope.

(** ** JavaScript strings *)

(** A string is the sequence of its code units, each below 65536. *)
Definition jsstring : Type := list N.

Definition js (s : string) : jsstring :=
  map N_of_ascii (list_ascii_of_string s).

Coercion js : string >-> jsstring.

(** ** Numbers *)

(** The Number values: [Finite s m e] is the double of value
    [(-1)^s * m * 2^e]. *)
Inductive number : Type :=
| NaN
| Infinity (negative : bool)
| Zero (negative : bool)
| Finite (negative : bool) (m : positive) (e : Z).

(** The mantissa and the exponent of a binary64 number: 53 bits and an
    exponent from -1074 to 971, or fewer bits at the least exponent. *)
Definition is_double (m : positive) (e : Z) : bool :=
  ((2 ^ 52 <=? Z.pos m) && (Z.pos m <? 2 ^ 53) && (-1074 <=? e) && (e <=? 971))
  || ((Z.pos m <? 2 ^ 52) && (e =? -1074)).

Definition number_eqb (x y : number) : bool :=
  match x, y with
  | NaN, NaN => true
  | Infinity s, Infinity s' => Bool.eqb s s'
  | Zero s, Zero s' => Bool.eqb s s'
  | Finite s m e, Finite s' m' e' => Bool.eqb s s' && Pos.eqb m m' && (e =? e')
  | _, _ => false
  end.

(** *** Decimal digits *)

(** The value of a sequence of decimal digits, most significant first. *)
Definition digits_value (ds : list N) : Z :=
  fold_left (fun a d => 10 * a + Z.of_N d) ds 0.

Fixpoint digits_onto (fuel : nat) (z : Z) (acc : list N) : list N :=
  match fuel with
  | O => acc
  | S fuel' =>
      if z <? 10 then Z.to_N z :: acc
      else digits_onto fuel' (z / 10) (Z.to_N (z mod 10) :: acc)
  end.

(** The decimal digits of a natural number, without leading zero. *)
Definition digits_of (z : Z) : list N :=
  digits_onto (S (Z.to_nat (Z.log2 z))) z [].

Fixpoint strip_zeros (ds : list N) : list N :=
  match ds with
  | 0%N :: ds' => strip_zeros ds'
  | _ => ds
  end.

(** [normalize ds E]: the decimal [ds * 10^E] without leading zeros and
    without trailing zeros. *)
Definition normalize (ds : list N) (E : Z) : list N * Z :=
  let tail := strip_zeros (rev ds) in
  (strip_zeros (rev tail), E + Z.of_nat (length ds) - Z.of_nat (length tail)).

(** *** Rounding to the nearest double, ties to even *)

(** [below p q k]: [p / q < 2^k]. *)
Definition below (p q k : Z) : bool :=
  if 0 <=? k then p <? Z.shiftl q k else Z.shiftl p (- k) <? q.

(** [fits p q E]: the quotient [p / q] lies in the binade of exponent [E],
    or under the normal numbers when [E] is the least exponent. *)
Definition fits (p q E : Z) : bool :=
  (-1074 <=? E) && (E <=? 971) && below p q (E + 53)
  && ((E =? -1074) || negb (below p q (E + 52))).

Fixpoint count_up (n : nat) (from : Z) : list Z :=
  match n with
  | O => []
  | S n' => from :: count_up n' (from + 1)
  end.

(** The exponents of the doubles, from -1074 to 971. *)
Definition exponents : list Z := count_up 2046 (-1074).

(** The exponent [E] that [p / q] fits: one of the two exponents that the
    sizes of [p] and [q] leave for a normal number, or else the one found
    among all of them. *)
Definition find_exponent (p q : Z) : option Z :=
  let c := Z.log2 p - Z.log2 q - 53 in
  match find (fits p q) [c; c + 1] with
  | Some E => Some E
  | None => find (fits p q) exponents
  end.

Definition nearest_even (num den : Z) : Z :=
  let f := num / den in
  match 2 * (num mod den) ?= den with
  | Lt => f
  | Gt => f + 1
  | Eq => if Z.even f then f else f + 1
  end.

(** The Number value of the positive quotient [p / q]. *)
Definition round_ratio (negative : bool) (p q : Z) : number :=
  match find_exponent p q with
  | None => Infinity negative
  | Some E =>
      let num := if E <? 0 then Z.shiftl p (- E) else p in
      let den := if E <? 0 then q else Z.shiftl q E in
      let M := nearest_even num den in
      if M =? 0 then Zero negative
      else if M =? 2 ^ 53
           then if E =? 971 then Infinity negative
                else Finite negative (Z.to_pos (2 ^ 52)) (E + 1)
           else Finite negative (Z.to_pos M) E
  end.

(** The Number value of the decimal [ds * 10^E]. *)
Definition round_decimal (negative : bool) (ds : list N) (E : Z) : number :=
  match normalize ds E with
  | ([], _) => Zero negative
  | (ds', E') =>
      let N := digits_value ds' in
      if 0 <=? E' then round_ratio negative (N * 10 ^ E') 1
      else round_ratio negative N (10 ^ (- E'))
  end.

(** *** [Number::toString] (ECMA-262, 6.1.6.1.20), radix 10 *)

(** The exact decimal expansion of [m * 2^e]: its digits [D], without
    trailing zeros, and the exponent [n] with [m * 2^e = 0.D * 10^n]. *)
Definition exact_decimal (m : positive) (e : Z) : list N * Z :=
  let S := if 0 <=? e then Z.shiftl (Z.pos m) e else Z.pos m * 5 ^ (- e) in
  let q := if 0 <=? e then 0 else e in
  let D := digits_of S in
  (rev (strip_zeros (rev D)), Z.of_nat (length D) + q).

(** The decimals of [k] digits next to [0.D * 10^n]: the one below, and the
    one above when there is one.  Each comes with its exponent. *)
Definition candidates (D : list N) (n : Z) (k : nat)
  : (list N * Z) * option (list N * Z) :=
  let head := firstn k D in
  let tail := skipn k D in
  let up :=
    let t := digits_value head + 1 in
    if t =? 10 ^ Z.of_nat k then (digits_of (10 ^ (Z.of_nat k - 1)), n + 1)
    else (digits_of t, n) in
  ((head, n), if digits_value tail =? 0 then None else Some up).

(** Of the two decimals the one closer to [0.D * 10^n]; the even one when
    they are as close. *)
Definition closer_is_up (D : list N) (k : nat) : bool :=
  let tail := skipn k D in
  let r := digits_value tail in
  let unit := 10 ^ Z.of_nat (length tail) in
  match 2 * r ?= unit with
  | Lt => false
  | Gt => true
  | Eq => Z.odd (digits_value (firstn k D))
  end.

Definition rounds_to (x : number) (c : list N * Z) : bool :=
  number_eqb (round_decimal false (fst c) (snd c - Z.of_nat (length (fst c)))) x.

(** The decimal of [k] digits that the Number [x] is the value of, if there
    is one. *)
Definition shortest_at (x : number) (D : list N) (n : Z) (k : nat)
  : option (list N * Z) :=
  match candidates D n k with
  | (down, None) => if rounds_to x down then Some down else None
  | (down, Some up) =>
      match rounds_to x down, rounds_to x up with
      | true, true => Some (if closer_is_up D k then up else down)
      | true, false => Some down
      | false, true => Some up
      | false, false => None
      end
  end.

Fixpoint first_some {A B} (f : A -> option B) (l : list A) : option B :=
  match l with
  | [] => None
  | a :: l' => match f a with Some b => Some b | None => first_some f l' end
  end.

(** The digits [s] and the exponent [n] of [Number::toString]: the fewest
    digits whose decimal has the value [m * 2^e]. *)
Definition shortest_decimal (m : positive) (e : Z) : list N * Z :=
  let (D, n) := exact_decimal m e in
  match first_some (shortest_at (Finite false m e) D n) (seq 1 (length D)) with
  | Some c => c
  | None => (D, n)
  end.

Definition digits_text (ds : list N) : jsstring := map (fun d => 48 + d)%N ds.

Definition format_decimal (D : list N) (n : Z) : jsstring :=
  let k := Z.of_nat (length D) in
  if (k <=? n) && (n <=? 21)
  then digits_text D ++ repeat 48%N (Z.to_nat (n - k))
  else if (0 <? n) && (n <=? 21)
  then digits_text (firstn (Z.to_nat n) D) ++ js "."
       ++ digits_text (skipn (Z.to_nat n) D)
  else if (-6 <? n) && (n <=? 0)
  then js "0." ++ repeat 48%N (Z.to_nat (- n)) ++ digits_text D
  else
    let exponent :=
      js (if n - 1 <? 0 then "e-" else "e+")
      ++ digits_text (digits_of (Z.abs (n - 1))) in
    match D with
    | [d] => digits_text [d] ++ exponent
    | d :: more => digits_text [d] ++ js "." ++ digits_text more ++ exponent
    | [] => exponent
    end.

Definition NumberToString (x : number) : jsstring :=
  match x with
  | NaN => js "NaN"
  | Infinity false => js "Infinity"
  | Infinity true => js "-Infinity"
  | Zero _ => js "0"
  | Finite negative m e =>
      let (D, n) := shortest_decimal m e in
      (if negative then js "-" else []) ++ format_decimal D n
  end.


(** ** Exceptions and results *)

Inductive exn : Type :=
| TypeError (message : string)
| UpstashError (message : string).

Inductive result (A : Type) : Type :=
| Ok (a : A)
| Err (e : exn).

Arguments Ok {A} a.
Arguments Err {A} e.

Definition result_bind {A B} (r : result A) (k : A -> result B) : result B :=
  match r with
  | Ok a => k a
  | Err e => Err e
  end.

(** Left-to-right evaluation of a list of computations: the first exception
    raised is the one that propagates. *)
Fixpoint sequence {A} (l : list (result A)) : result (list A) :=
  match l with
  | [] => Ok []
  | r :: l' =>
      result_bind r (fun a => result_bind (sequence l') (fun l => Ok (a :: l)))
  end.

(** ** JavaScript values *)

(** The payloads [emit] can be handed: the primitive values and the plain
    arrays and objects built from them.  [VObject] lists the own enumerable
    string-keyed properties in the order [Object.keys] enumerates them.
    Symbols, functions, cyclic structures and objects with a [toJSON]
    method or with accessors are not values of this type. *)
#[warnings="-register-all"] Inductive value : Type :=
| VUndefined
| VNull
| VBool (b : bool)
| VNumber (x : number)
| VBigInt (n : Z)
| VString (s : jsstring)
| VArray (elems : list value)
| VObject (props : list (jsstring * value)).

(** ** [JSON.stringify] (ECMA-262, 25.5.2), without replacer and gap *)

Definition hex_digit (n : N) : N :=
  (if n <? 10 then 48 + n else 87 + n)%N.

(** [UnicodeEscape]: backslash, u and four lowercase hexadecimal digits. *)
Definition UnicodeEscape (c : N) : jsstring :=
  js "\u" ++ [hex_digit (c / 4096 mod 16); hex_digit (c / 256 mod 16);
              hex_digit (c / 16 mod 16); hex_digit (c mod 16)]%N.

(** A code unit that is no surrogate, as [QuoteJSONString] writes it. *)
Definition quote_unit (c : N) : jsstring :=
  (if c =? 8 then js "\b"
   else if c =? 9 then js "\t"
   else if c =? 10 then js "\n"
   else if c =? 12 then js "\f"
   else if c =? 13 then js "\r"
   else if c =? 34 then [92; 34]
   else if c =? 92 then [92; 92]
   else if c <? 32 then UnicodeEscape c
   else [c])%N.

Definition is_leading_surrogate (c : N) : bool := ((55296 <=? c) && (c <=? 56319))%N.

Definition is_trailing_surrogate (c : N) : bool := ((56320 <=? c) && (c <=? 57343))%N.

(** The code points of the string, one after the other: a leading surrogate
    followed by a trailing one is a pair and is written as it is, any other
    surrogate is escaped. *)
Fixpoint quote_units (s : jsstring) : jsstring :=
  match s with
  | [] => []
  | c :: s' =>
      if is_leading_surrogate c then
        match s' with
        | d :: s'' =>
            if is_trailing_surrogate d then c :: d :: quote_units s''
            else UnicodeEscape c ++ quote_units s'
        | [] => UnicodeEscape c
        end
      else if is_trailing_surrogate c then UnicodeEscape c ++ quote_units s'
      else quote_unit c ++ quote_units s'
  end.

Definition QuoteJSONString (s : jsstring) : jsstring :=
  [34%N] ++ quote_units s ++ [34%N].

(** The texts joined by commas. *)
Fixpoint join (parts : list jsstring) : jsstring :=
  match parts with
  | [] => []
  | [t] => t
  | t :: parts' => t ++ js "," ++ join parts'
  end.

(** [SerializeJSONArray]: an element that serializes to [undefined] is
    written as null. *)
Definition SerializeJSONArray (elems : list (result (option jsstring)))
  : result jsstring :=
  result_bind (sequence elems) (fun parts =>
    Ok (js "[" ++ join (map (fun o => match o with
                                      | Some s => s
                                      | None => js "null"
                                      end) parts)
               ++ js "]")).

Definition member_text (m : jsstring * option jsstring) : option jsstring :=
  match snd m with
  | Some s => Some (QuoteJSONString (fst m) ++ js ":" ++ s)
  | None => None
  end.

Fixpoint somes {A} (l : list (option A)) : list A :=
  match l with
  | [] => []
  | Some a :: l' => a :: somes l'
  | None :: l' => somes l'
  end.

(** [SerializeJSONObject]: a property whose value serializes to [undefined]
    is left out. *)
Definition SerializeJSONObject (props : list (result (jsstring * option jsstring)))
  : result jsstring :=
  result_bind (sequence props) (fun members =>
    Ok (js "{" ++ join (somes (map member_text members)) ++ js "}")).

Definition bigint_error : exn :=
  TypeError "Do not know how to serialize a BigInt".

Fixpoint SerializeJSONProperty (v : value) : result (option jsstring) :=
  match v with
  | VUndefined => Ok None
  | VNull => Ok (Some (js "null"))
  | VBool true => Ok (Some (js "true"))
  | VBool false => Ok (Some (js "false"))
  | VNumber (Finite s m e) => Ok (Some (NumberToString (Finite s m e)))
  | VNumber (Zero s) => Ok (Some (NumberToString (Zero s)))
  | VNumber _ => Ok (Some (js "null"))
  | VBigInt _ => Err bigint_error
  | VString s => Ok (Some (QuoteJSONString s))
  | VArray elems =>
      result_bind (SerializeJSONArray (map SerializeJSONProperty elems))
                  (fun s => Ok (Some s))
  | VObject props =>
      result_bind
        (SerializeJSONObject
           (map (fun kv => result_bind (SerializeJSONProperty (snd kv))
                             (fun o => Ok (fst kv, o))) props))
        (fun s => Ok (Some s))
  end.

Definition JSON_stringify (v : value) : result (option jsstring) :=
  SerializeJSONProperty v.

(** [JSON.stringify([x1, ..., xn])]: on an array literal the result is a
    string or an exception, never [undefined]. *)
Definition JSON_stringify_array (elems : list value) : result jsstring :=
  SerializeJSONArray (map SerializeJSONProperty elems).

(** ** [JSON.parse] (ECMA-262, 25.5.1), without reviver *)

(** What the consumers of a channel run on a message.  The result [None]
    stands for a [SyntaxError]. *)

Definition is_ws (c : N) : bool :=
  ((c =? 9) || (c =? 10) || (c =? 13) || (c =? 32))%N.

Fixpoint skip_ws (s : jsstring) : jsstring :=
  match s with
  | c :: s' => if is_ws c then skip_ws s' else s
  | [] => s
  end.

Definition is_digit (c : N) : bool := ((48 <=? c) && (c <=? 57))%N.

Definition hex_value (c : N) : option N :=
  (if (48 <=? c) && (c <=? 57) then Some (c - 48)
   else if (97 <=? c) && (c <=? 102) then Some (c - 87)
   else if (65 <=? c) && (c <=? 70) then Some (c - 55)
   else None)%N.

Definition hex4 (a b c d : N) : option N :=
  match hex_value a, hex_value b, hex_value c, hex_value d with
  | Some x, Some y, Some z, Some w => Some (((x * 16 + y) * 16 + z) * 16 + w)%N
  | _, _, _, _ => None
  end.

Definition push (c : N) (r : option (jsstring * jsstring))
  : option (jsstring * jsstring) :=
  match r with
  | Some (s, rest) => Some (c :: s, rest)
  | None => None
  end.

(** The characters of a string literal, after its opening quote. *)
Fixpoint parse_chars (s : jsstring) : option (jsstring * jsstring) :=
  match s with
  | [] => None
  | c :: s' =>
      if c =? 34 then Some ([], s')
      else if c =? 92 then
        match s' with
        | [] => None
        | e :: s'' =>
            if e =? 34 then push 34 (parse_chars s'')
            else if e =? 92 then push 92 (parse_chars s'')
            else if e =? 47 then push 47 (parse_chars s'')
            else if e =? 98 then push 8 (parse_chars s'')
            else if e =? 102 then push 12 (parse_chars s'')
            else if e =? 110 then push 10 (parse_chars s'')
            else if e =? 114 then push 13 (parse_chars s'')
            else if e =? 116 then push 9 (parse_chars s'')
            else if e =? 117 then
              match s'' with
              | h1 :: h2 :: h3 :: h4 :: s3 =>
                  match hex4 h1 h2 h3 h4 with
                  | Some n => push n (parse_chars s3)
                  | None => None
                  end
              | _ => None
              end
            else None
        end
      else if c <? 32 then None
      else push c (parse_chars s')
  end%N.

(** The decimal digits at the start of the text, as numbers. *)
Fixpoint span_digits (s : jsstring) : list N * jsstring :=
  match s with
  | c :: s' =>
      if is_digit c
      then let (ds, rest) := span_digits s' in ((c - 48)%N :: ds, rest)
      else ([], s)
  | [] => ([], [])
  end.

(** The fraction of a number, if it has one: a point and digits. *)
Definition parse_fraction (s : jsstring) : option (list N * jsstring) :=
  match s with
  | 46%N :: s' =>
      match span_digits s' with
      | ([], _) => None
      | r => Some r
      end
  | _ => Some ([], s)
  end.

Definition is_e (c : N) : bool := ((c =? 101) || (c =? 69))%N.

(** The exponent of a number, if it has one: e or E, a sign or none, and
    digits. *)
Definition parse_exponent (s : jsstring) : option (Z * jsstring) :=
  match s with
  | c :: s' =>
      if is_e c then
        let (negative, s'') :=
          match s' with
          | 45%N :: t => (true, t)
          | 43%N :: t => (false, t)
          | _ => (false, s')
          end in
        match span_digits s'' with
        | ([], _) => None
        | (ds, rest) =>
            Some (if negative then - digits_value ds else digits_value ds, rest)
        end
      else Some (0, s)
  | [] => Some (0, s)
  end.

(** The digits of a number, after its sign if it has one; its value is the
    Number value of the decimal it denotes. *)
Definition parse_digits (negative : bool) (s : jsstring)
  : option (number * jsstring) :=
  match span_digits s with
  | ([], _) => None
  | (d :: more, s1) =>
      if (d =? 0)%N && negb (match more with [] => true | _ => false end)
      then None
      else
        match parse_fraction s1 with
        | None => None
        | Some (frac, s2) =>
            match parse_exponent s2 with
            | None => None
            | Some (X, s3) =>
                Some (round_decimal negative ((d :: more) ++ frac)
                        (X - Z.of_nat (length frac)), s3)
            end
        end
  end.

Definition parse_number (s : jsstring) : option (number * jsstring) :=
  match s with
  | c :: s' => if (c =? 45)%N then parse_digits true s' else parse_digits false s
  | [] => None
  end.

(** *** Own property keys of an ordinary object *)

Fixpoint jsstring_eqb (a b : jsstring) : bool :=
  match a, b with
  | [], [] => true
  | c :: a', d :: b' => (c =? d)%N && jsstring_eqb a' b'
  | _, _ => false
  end.

(** An array index is the canonical decimal text of an integer below
    2^32 - 1. *)
Definition array_index (k : jsstring) : option Z :=
  match k with
  | [] => None
  | c :: more =>
      if forallb is_digit k
         && negb ((c =? 48)%N && negb (match more with [] => true | _ => false end))
      then
        let i := digits_value (map (fun c => c - 48)%N k) in
        if i <? 4294967295 then Some i else None
      else None
  end.

(** [comes_before k k']: the key [k] is enumerated before [k'] whatever the
    order of creation (array indices first, in ascending order). *)
Definition comes_before (k k' : jsstring) : bool :=
  match array_index k, array_index k' with
  | Some i, Some j => i <? j
  | Some _, None => true
  | None, _ => false
  end.

Fixpoint has_key (k : jsstring) (o : list (jsstring * value)) : bool :=
  match o with
  | [] => false
  | (k', _) :: o' => jsstring_eqb k k' || has_key k o'
  end.

Fixpoint replace_value (k : jsstring) (v : value) (o : list (jsstring * value))
  : list (jsstring * value) :=
  match o with
  | [] => []
  | (k', v') :: o' =>
      if jsstring_eqb k k' then (k, v) :: o' else (k', v') :: replace_value k v o'
  end.

Fixpoint insert_new (k : jsstring) (v : value) (o : list (jsstring * value))
  : list (jsstring * value) :=
  match o with
  | [] => [(k, v)]
  | (k', v') :: o' =>
      if comes_before k k' then (k, v) :: o else (k', v') :: insert_new k v o'
  end.

(** [CreateDataProperty(O, k, v)]: an existing property keeps its place and
    takes the new value, a new one is put where the enumeration has it. *)
Definition CreateDataProperty (o : list (jsstring * value)) (kv : jsstring * value)
  : list (jsstring * value) :=
  if has_key (fst kv) o then replace_value (fst kv) (snd kv) o
  else insert_new (fst kv) (snd kv) o.

(** *** Values *)

Definition pack {A} (f : A -> value) (r : option (A * jsstring))
  : option (value * jsstring) :=
  match r with
  | Some (a, rest) => Some (f a, rest)
  | None => None
  end.

(** [strip word s]: what follows [word] at the start of [s]. *)
Fixpoint strip (word s : jsstring) : option jsstring :=
  match word with
  | [] => Some s
  | c :: word' =>
      match s with
      | c' :: s' => if (c =? c')%N then strip word' s' else None
      | [] => None
      end
  end.

Definition literal (word : jsstring) (v : value) (s : jsstring)
  : option (value * jsstring) :=
  match strip word s with
  | Some rest => Some (v, rest)
  | None => None
  end.

(** A value, given the parsers of the elements of an array and of the
    members of an object. *)
Definition parse_value_with
    (elements : jsstring -> option (list value * jsstring))
    (members : jsstring -> option (list (jsstring * value) * jsstring))
    (s : jsstring) : option (value * jsstring) :=
  match skip_ws s with
  | [] => None
  | (c :: rest) as s1 =>
      if c =? 110 then literal (js "null") VNull s1
      else if c =? 116 then literal (js "true") (VBool true) s1
      else if c =? 102 then literal (js "false") (VBool false) s1
      else if c =? 34 then pack VString (parse_chars rest)
      else if c =? 91 then
        match skip_ws rest with
        | c' :: rest' =>
            if c' =? 93 then Some (VArray [], rest')
            else pack VArray (elements rest)
        | [] => None
        end
      else if c =? 123 then
        match skip_ws rest with
        | c' :: rest' =>
            if c' =? 125 then Some (VObject [], rest')
            else pack (fun ms => VObject (fold_left CreateDataProperty ms []))
                      (members rest)
        | [] => None
        end
      else pack VNumber (parse_number s1)
  end%N.

(** The elements of an array after the first bracket or a comma, up to the
    closing bracket. *)
Definition parse_elements_with
    (one : jsstring -> option (value * jsstring))
    (more : jsstring -> option (list value * jsstring))
    (s : jsstring) : option (list value * jsstring) :=
  match one s with
  | Some (v, rest) =>
      match skip_ws rest with
      | c :: rest' =>
          if c =? 44 then
            match more rest' with
            | Some (vs, rest'') => Some (v :: vs, rest'')
            | None => None
            end
          else if c =? 93 then Some ([v], rest')
          else None
      | [] => None
      end
  | None => None
  end%N.

(** The members of an object after the first brace or a comma, up to the
    closing brace. *)
Definition parse_members_with
    (one : jsstring -> option (value * jsstring))
    (more : jsstring -> option (list (jsstring * value) * jsstring))
    (s : jsstring) : option (list (jsstring * value) * jsstring) :=
  match skip_ws s with
  | c :: rest =>
      if c =? 34 then
        match parse_chars rest with
        | Some (k, rest1) =>
            match skip_ws rest1 with
            | c1 :: rest2 =>
                if c1 =? 58 then
                  match one rest2 with
                  | Some (v, rest3) =>
                      match skip_ws rest3 with
                      | c3 :: rest4 =>
                          if c3 =? 44 then
                            match more rest4 with
                            | Some (ms, rest5) => Some ((k, v) :: ms, rest5)
                            | None => None
                            end
                          else if c3 =? 125 then Some ([(k, v)], rest4)
                          else None
                      | [] => None
                      end
                  | None => None
                  end
                else None
            | [] => None
            end
        | None => None
        end
      else None
  | [] => None
  end%N.

Fixpoint parse_value (fuel : nat) (s : jsstring) : option (value * jsstring) :=
  match fuel with
  | O => None
  | S fuel' =>
      parse_value_with (parse_elements fuel') (parse_members fuel') s
  end

with parse_elements (fuel : nat) (s : jsstring) : option (list value * jsstring) :=
  match fuel with
  | O => None
  | S fuel' =>
      parse_elements_with (parse_value fuel') (parse_elements fuel') s
  end

with parse_members (fuel : nat) (s : jsstring)
  : option (list (jsstring * value) * jsstring) :=
  match fuel with
  | O => None
  | S fuel' =>
      parse_members_with (parse_value fuel') (parse_members fuel') s
  end.

Definition JSON_parse (text : jsstring) : option value :=
  match parse_value (S (length text)) text with
  | Some (v, rest) =>
      match skip_ws rest with
      | [] => Some v
      | _ :: _ => None
      end
  | None => None
  end.

(** The double quote, for the texts of log messages. *)
Definition dquote : ascii := "034"%char.

(** The Number value of an integer. *)
Definition integer (z : Z) : number :=
  match z with
  | Z0 => Zero false
  | Zpos p => round_ratio false (Zpos p) 1
  | Zneg p => round_ratio true (Zpos p) 1
  end.

(** ** Notions the properties are stated with *)

(** Digits that make a numeral: at least one, each below ten, the first not
    zero. *)
Definition good_digits (ds : list N) : Prop :=
  ds <> [] /\ Forall (fun d => (d < 10)%N) ds /\ hd 0%N ds <> 0%N.

(** [exact p q m e]: the quotient [p / q] is [m * 2^e]. *)
Definition exact (p q : Z) (m : positive) (e : Z) : Prop :=
  p * 2 ^ 1100 = Z.pos m * q * 2 ^ (1100 + e).

(** What may follow a number for its text to end there. *)
Definition delimited (rest : jsstring) : bool :=
  match rest with
  | c :: _ => negb (is_digit c) && negb (c =? 46)%N && negb (is_e c)
  | [] => true
  end.

Definition no_digit (rest : jsstring) : bool :=
  match rest with
  | c :: _ => negb (is_digit c)
  | [] => true
  end.

(** The text of an exponent, as [Number::toString] writes it. *)
Definition exponent_text (E : Z) : jsstring :=
  js (if E <? 0 then "e-" else "e+") ++ digits_text (digits_of (Z.abs E)).

(** The Numbers that come back from their text: the doubles other than
    negative zero (NaN and the infinities are written as null, negative
    zero as 0). *)
Definition representable_number (x : number) : bool :=
  match x with
  | Zero false => true
  | Finite _ m e => is_double m e
  | _ => false
  end.

Definition number_start (c : N) : bool := is_digit c || (c =? 45)%N.

(** *** The values [JSON.parse] gives back *)

(** The keys of an object in enumeration order: no key twice, and no key
    after one it comes before. *)
Fixpoint own_keys_ordered (ks : list jsstring) : bool :=
  match ks with
  | [] => true
  | k :: ks' =>
      forallb (fun k' => negb (jsstring_eqb k' k) && negb (comes_before k' k)) ks'
      && own_keys_ordered ks'
  end.

(** JSON-representable values: built from null, booleans, the doubles other
    than negative zero, strings, arrays and objects; no [undefined], no
    BigInt, no NaN and no infinity. *)
Fixpoint representable (v : value) : bool :=
  match v with
  | VUndefined | VBigInt _ => false
  | VNull | VBool _ | VString _ => true
  | VNumber x => representable_number x
  | VArray elems => forallb representable elems
  | VObject props =>
      own_keys_ordered (map fst props)
      && forallb (fun kv => representable (snd kv)) props
  end.

Definition value_start (c : N) : bool :=
  (number_start c || (c =? 110) || (c =? 116) || (c =? 102)
   || (c =? 34) || (c =? 91) || (c =? 123))%N.

Definition starts_value (t : jsstring) : bool :=
  match t with
  | c :: _ => value_start c
  | [] => false
  end.

(** [round_trips v]: a representable [v] serializes to a text, and a parser
    with more fuel than the text is long reads [v] back from the front of
    any input that starts with the text. *)
Definition round_trips (v : value) : Prop :=
  representable v = true ->
  exists t,
    SerializeJSONProperty v = Ok (Some t)
    /\ starts_value t = true
    /\ forall fuel rest,
         (length t < fuel)%nat -> delimited rest = true ->
         parse_value fuel (t ++ rest) = Some (v, rest).

Definition member_of (m : jsstring * jsstring) : jsstring * option jsstring :=
  (fst m, Some (snd m)).

Definition member_string (m : jsstring * jsstring) : jsstring :=
  QuoteJSONString (fst m) ++ js ":" ++ snd m.

(** No BigInt anywhere in the value. *)
Fixpoint bigint_free (v : value) : bool :=
  match v with
  | VBigInt _ => false
  | VArray elems => forallb bigint_free elems
  | VObject props => forallb (fun kv => bigint_free (snd kv)) props
  | _ => true
  end.

(** No code unit below the space: no line break, no control character. *)
Definition no_control (s : jsstring) : bool :=
  forallb (fun c => (32 <=? c)%N) s.

#[local] Close Scope Z_scope.
#[local] Open Scope string_scope.

(** ** Collaborators of the relay *)

(** The calls a method makes to its collaborators, in program order. *)
Inductive effect : Type :=
| LogWarn (message : string)
| LogError (message : string) (cause : exn)
| LogSuccess (message : string) (payload : value)
| RedisPublish (channel : string) (message : jsstring)
| RedisSMembers (key : string).

(** The client of [@upstash/redis/cloudflare], as far as [IO] uses it: the
    constructor and the two commands.  A command answers or throws, and
    moves the store to a new state. *)
Class Redis (Store : Type) : Type := {
  Redis_new : string -> string -> Store;
  publish : Store -> string -> jsstring -> result Z * Store;
  smembers : Store -> string -> result (list string) * Store
}.

Section Relay.

Context {Store : Type} {client : Redis Store}.

(** The fields of an instance of [IO]. *)
Record IO : Type := mkIO {
  targetRoom : option string;
  redis : Store;
  prefix : string
}.

(** *** Method bodies: state, exceptions and effects *)

Record run (A : Type) : Type := Run {
  outcome : result A;
  final : IO;
  effects : list effect
}.

Arguments Run {A} outcome final effects.
Arguments outcome {A} r.
Arguments final {A} r.
Arguments effects {A} r.

Definition M (A : Type) : Type := IO -> run A.

Definition ret {A} (a : A) : M A := fun this => Run (Ok a) this [].

Definition throw {A} (e : exn) : M A := fun this => Run (Err e) this [].

Definition bind {A B} (m : M A) (k : A -> M B) : M B :=
  fun this =>
    match m this with
    | Run (Ok a) this1 l1 =>
        match k a this1 with
        | Run o this2 l2 => Run o this2 (l1 ++ l2)%list
        end
    | Run (Err e) this1 l1 => Run (Err e) this1 l1
    end.

Notation "x <- m ;; k" := (bind m (fun x => k))
  (at level 61, m at next level, right associativity).
Notation "m ;; k" := (bind m (fun _ => k))
  (at level 61, right associativity).

(** [try { body } catch (error) { handler }] *)
Definition try_catch {A} (body : M A) (handler : exn -> M A) : M A :=
  fun this =>
    match body this with
    | Run (Ok a) this1 l1 => Run (Ok a) this1 l1
    | Run (Err e) this1 l1 =>
        match handler e this1 with
        | Run o this2 l2 => Run o this2 (l1 ++ l2)%list
        end
    end.

(** [try { body } finally { cleanup }]: the cleanup runs on every exit of
    the body; the body's completion stands unless the cleanup throws. *)
Definition try_finally {A} (body : M A) (cleanup : M unit) : M A :=
  fun this =>
    match body this with
    | Run o this1 l1 =>
        match cleanup this1 with
        | Run (Ok _) this2 l2 => Run o this2 (l1 ++ l2)%list
        | Run (Err e) this2 l2 => Run (Err e) this2 (l1 ++ l2)%list
        end
    end.

Definition lift {A} (r : result A) : M A :=
  match r with
  | Ok a => ret a
  | Err e => throw e
  end.

Definition get_targetRoom : M (option string) :=
  fun this => Run (Ok (targetRoom this)) this [].

Definition set_targetRoom (t : option string) : M unit :=
  fun this => Run (Ok tt) (mkIO t (redis this) (prefix this)) [].

Definition get_this : M IO := fun this => Run (Ok this) this [].

(** Modelled from the spec: [logger] of the package jstack-shared, whose
    source is not part of the relay.  Its operations are fire-and-forget:
    they record the message and never block or raise. *)
Definition logger_warn (message : string) : M unit :=
  fun this => Run (Ok tt) this [LogWarn message].

Definition logger_error (message : string) (cause : exn) : M unit :=
  fun this => Run (Ok tt) this [LogError message cause].

Definition logger_success (message : string) (payload : value) : M unit :=
  fun this => Run (Ok tt) this [LogSuccess message payload].

(** [await this.redis.publish(channel, message)] *)
Definition redis_publish (channel : string) (message : jsstring) : M Z :=
  fun this =>
    let (answer, store) := publish (redis this) channel message in
    Run answer (mkIO (targetRoom this) store (prefix this))
        [RedisPublish channel message].

(** [await this.redis.smembers(key)] *)
Definition redis_smembers (key : string) : M (list string) :=
  fun this =>
    let (answer, store) := smembers (redis this) key in
    Run answer (mkIO (targetRoom this) store (prefix this))
        [RedisSMembers key].

(** *** The class [IO] *)

(** [options.prefix || "io"]: the right operand is taken when the left one
    is falsy, that is [undefined] or the empty string. *)
Definition or_default (o : option string) (d : string) : string :=
  match o with
  | None | Some EmptyString => d
  | Some s => s
  end.

(** [constructor(redisUrl, redisToken, options = {})]; [options] is given by
    its only field, the optional [prefix]. *)
Definition IO_new (redisUrl redisToken : string) (options_prefix : option string)
  : IO :=
  mkIO None (Redis_new redisToken redisUrl) (or_default options_prefix "io").

Definition formatRoomName (this : IO) (room : string) : string :=
  prefix this ++ ":" ++ room.

Definition no_target_warning : string :=
  "IO emit called without setting a target room first".

Definition emitted_message (room : string) : string :=
  "IO emitted to room " ++ String dquote (room ++ String dquote ":").

(** [async emit(event, data)], for event names that are strings.
    [!this.targetRoom] holds of [null] and of the empty string; the [return]
    in that branch leaves the [try] block normally, through [finally]. *)
Definition emit (event : jsstring) (data : value) : M unit :=
  try_finally
    (try_catch
       (target <- get_targetRoom ;;
        match target with
        | None | Some EmptyString =>
            logger_warn no_target_warning
        | Some room =>
            this <- get_this ;;
            let roomName := formatRoomName this room in
            payload <- lift (JSON_stringify_array [VString event; data]) ;;
            redis_publish roomName payload ;;
            target' <- get_targetRoom ;;
            logger_success
              (emitted_message (match target' with Some r => r | None => "null" end))
              (VArray [VString event; data])
        end)
       (fun error =>
          logger_error "Failed to emit event" error ;;
          throw error))
    (set_targetRoom None).

(** [to(room)]; the method returns [this], so that a call chained on it is
    the next call on the same instance. *)
Definition to (room : string) : M unit :=
  match room with
  | EmptyString => logger_warn "Empty room name provided to IO.to()"
  | _ => ret tt
  end ;;
  set_targetRoom (Some room).

Definition clients_failure_message (room : string) : string :=
  "Failed to get clients in room " ++ String dquote (room ++ String dquote "").

(** [async getClientsInRoom(room)] *)
Definition getClientsInRoom (room : string) : M (list string) :=
  try_catch
    (this <- get_this ;;
     let roomName := formatRoomName this room in
     clients <- redis_smembers (roomName ++ ":clients") ;;
     ret clients)
    (fun error =>
       logger_error (clients_failure_message room) error ;;
       ret []).

(** [async close()]: the [try] block is empty. *)
Definition close : M unit :=
  try_catch (ret tt)
    (fun error => logger_error "Error closing IO connections" error).

(** The calls to [publish] among the effects of a run. *)
Fixpoint published (l : list effect) : list (string * jsstring) :=
  match l with
  | [] => []
  | RedisPublish channel message :: l' => (channel, message) :: published l'
  | _ :: l' => published l'
  end.

(** The keys of the calls to [smembers] among the effects of a run. *)
Fixpoint queried (l : list effect) : list string :=
  match l with
  | [] => []
  | RedisSMembers key :: l' => key :: queried l'
  | _ :: l' => queried l'
  end.

(** The states an instance goes through: the one the constructor builds,
    and the one each method call leaves. *)
Inductive reachable : IO -> Prop :=
| reachable_new (redisUrl redisToken : string) (options_prefix : option string) :
    reachable (IO_new redisUrl redisToken options_prefix)
| reachable_emit (this : IO) (event : jsstring) (data : value) :
    reachable this -> reachable (final (emit event data this))
| reachable_to (this : IO) (room : string) :
    reachable this -> reachable (final (to room this))
| reachable_getClientsInRoom (this : IO) (room : string) :
    reachable this -> reachable (final (getClientsInRoom room this))
| reachable_close (this : IO) :
    reachable this -> reachable (final (close this)).

End Relay.

Arguments IO Store : clear implicits.
Arguments M Store A : clear implicits.
Arguments run Store A : clear implicits.
Arguments Run {Store A} outcome final effects.
Arguments outcome {Store A} r.
Arguments final {Store A} r.
Arguments effects {Store A} r.

Notation "x <- m ;; k" := (bind m (fun x => k))
  (at level 61, m at next level, right associativity).
Notation "m ;; k" := (bind m (fun _ => k))
  (at level 61, right associativity).

(** A store for examples: it keeps the list of messages it accepted, refuses
    to publish on the channel ["io:down"] and holds two clients in the room
    ["lobby"]. *)
Definition demo_publish (st : list (string * jsstring)) (channel : string)
    (message : jsstring) : result Z * list (string * jsstring) :=
  if String.eqb channel "io:down"
  then (Err (UpstashError "connection refused"), st)
  else (Ok 1%Z, (st ++ [(channel, message)])%list).

Definition demo_smembers (st : list (string * jsstring)) (key : string)
  : result (list string) * list (string * jsstring) :=
  if String.eqb key "io:lobby:clients" then (Ok ["c1"; "c2"], st)
  else if String.eqb key "io:down:clients"
       then (Err (UpstashError "connection refused"), st)
       else (Ok [], st).

#[local] Instance demo_redis : Redis (list (string * jsstring)) := {
  Redis_new := fun _ _ => [];
  publish := demo_publish;
  smembers := demo_smembers
}.

Definition demo_io : IO (list (string * jsstring)) :=
  IO_new "https://store.example" "token" None.

(** The same instance after [to(room)]. *)
Definition demo_targeted (room : string) : IO (list (string * jsstring)) :=
  mkIO (Some room) [] "io".

(** A payload with a fraction, characters outside ASCII (an accented letter,
    the euro sign, a pair of surrogates) and nested data. *)
Definition demo_data : value :=
  VObject [(js "msg", VString "hi");
           (js "price", VNumber (Finite false 6755399441055744 (-52)));
           (js "tags", VArray [VString [233; 8364; 55357; 56832]%N; VNull;
                               VBool true; VNumber (integer (-3))])].

(** The text of the frame [["chat", null]]. *)
Definition demo_payload : jsstring :=
  (js "[" ++ QuoteJSONString "chat" ++ js ",null]")%list.

(** ** Reading the effects of a run *)

Definition is_log (e : effect) : bool :=
  match e with
  | LogWarn _ | LogError _ _ | LogSuccess _ _ => true
  | RedisPublish _ _ | RedisSMembers _ => false
  end.

(** The calls to the logger among the effects of a run. *)
Definition logged (l : list effect) : list effect := filter is_log l.

(** The calls to the store among the effects of a run. *)
Definition store_calls (l : list effect) : list effect :=
  filter (fun e => negb (is_log e)) l.

(** * Properties *)

#[local] Open Scope list_scope.
#[local] Open Scope Z_scope.

(** ** Decimal digits *)

Lemma fold_digits (ds : list N) (a : Z) :
  fold_left (fun a d => 10 * a + Z.of_N d) ds a
  = a * 10 ^ Z.of_nat (length ds) + digits_value ds.
Proof.
  unfold digits_value. revert a.
  induction ds as [|d ds IH]; intros a.
  - simpl. lia.
  - cbn [fold_left length]. rewrite IH, (IH (10 * 0 + Z.of_N d)).
    rewrite Nat2Z.inj_succ, Z.pow_succ_r by lia. lia.
Qed.

Lemma digits_value_app (a b : list N) :
  digits_value (a ++ b)
  = digits_value a * 10 ^ Z.of_nat (length b) + digits_value b.
Proof.
  unfold digits_value at 1. rewrite fold_left_app.
  fold (digits_value a). apply fold_digits.
Qed.

Lemma digits_value_cons (d : N) (ds : list N) :
  digits_value (d :: ds)
  = Z.of_N d * 10 ^ Z.of_nat (length ds) + digits_value ds.
Proof.
  change (d :: ds) with ([d] ++ ds). rewrite digits_value_app.
  unfold digits_value at 1. simpl. lia.
Qed.

Lemma digits_value_zeros (j : nat) : digits_value (repeat 0%N j) = 0.
Proof.
  induction j as [|j IH]; [reflexivity|].
  cbn [repeat]. rewrite digits_value_cons, IH. lia.
Qed.

Lemma digits_value_nonneg (ds : list N) : 0 <= digits_value ds.
Proof.
  induction ds as [|d ds IH]; [reflexivity|].
  rewrite digits_value_cons.
  assert (0 <= 10 ^ Z.of_nat (length ds)) by (apply Z.pow_nonneg; lia).
  nia.
Qed.

Lemma digits_onto_app (fuel : nat) (z : Z) (acc : list N) :
  digits_onto fuel z acc = digits_onto fuel z [] ++ acc.
Proof.
  revert z acc. induction fuel as [|fuel IH]; intros z acc; simpl.
  - reflexivity.
  - destruct (z <? 10); [reflexivity|].
    rewrite IH, (IH _ [_]), <- app_assoc. reflexivity.
Qed.

Lemma digits_onto_value (fuel : nat) (z : Z) :
  0 <= z < 2 ^ Z.of_nat fuel ->
  digits_value (digits_onto fuel z []) = z.
Proof.
  revert z. induction fuel as [|fuel IH]; intros z Hz.
  - simpl in *. assert (z = 0) by lia. now subst.
  - cbn [digits_onto]. destruct (Z.ltb_spec z 10) as [Hlt|Hge].
    + unfold digits_value. simpl. lia.
    + rewrite digits_onto_app, digits_value_app, IH.
      * unfold digits_value at 1. simpl.
        rewrite Z2N.id by (apply Z.mod_pos_bound; lia).
        pose proof (Z.div_mod z 10). lia.
      * rewrite Nat2Z.inj_succ, Z.pow_succ_r in Hz by lia.
        split; [apply Z.div_pos; lia|].
        apply Z.div_lt_upper_bound; lia.
Qed.

Lemma digits_onto_good (fuel : nat) (z : Z) :
  0 < z < 2 ^ Z.of_nat fuel -> good_digits (digits_onto fuel z []).
Proof.
  revert z. induction fuel as [|fuel IH]; intros z Hz.
  - simpl in Hz. lia.
  - cbn [digits_onto]. destruct (Z.ltb_spec z 10) as [Hlt|Hge].
    + repeat split.
      * discriminate.
      * constructor; [lia | constructor].
      * simpl. lia.
    + rewrite digits_onto_app.
      destruct (IH (z / 10)) as (Hne & Hall & Hhd).
      { rewrite Nat2Z.inj_succ, Z.pow_succ_r in Hz by lia.
        split; [apply Z.div_str_pos; lia|].
        apply Z.div_lt_upper_bound; lia. }
      repeat split.
      * intros H. apply app_eq_nil in H as [H _]. contradiction.
      * apply Forall_app. split; [exact Hall|].
        constructor; [|constructor].
        pose proof (Z.mod_pos_bound z 10). lia.
      * destruct (digits_onto fuel (z / 10) []); [contradiction | exact Hhd].
Qed.

Lemma digits_of_fuel (z : Z) :
  0 < z -> z < 2 ^ Z.of_nat (S (Z.to_nat (Z.log2 z))).
Proof.
  intros Hz. rewrite Nat2Z.inj_succ, Z2Nat.id by apply Z.log2_nonneg.
  apply Z.log2_spec. exact Hz.
Qed.

Lemma digits_of_value (z : Z) : 0 <= z -> digits_value (digits_of z) = z.
Proof.
  intros Hz. destruct (Z.eq_dec z 0) as [->|Hne]; [reflexivity|].
  apply digits_onto_value. split; [exact Hz|]. apply digits_of_fuel. lia.
Qed.

Lemma digits_of_good (z : Z) : 0 < z -> good_digits (digits_of z).
Proof.
  intros Hz. apply digits_onto_good. split; [exact Hz|].
  now apply digits_of_fuel.
Qed.

(** ** Leading and trailing zeros *)

Lemma strip_zeros_repeat (j : nat) (l : list N) :
  strip_zeros (repeat 0%N j ++ l) = strip_zeros l.
Proof.
  induction j as [|j IH]; [reflexivity | exact IH].
Qed.

Lemma strip_zeros_id (l : list N) : hd 0%N l <> 0%N -> strip_zeros l = l.
Proof.
  destruct l as [|[|p] l]; simpl; intros H; congruence.
Qed.

Lemma strip_zeros_split (l : list N) :
  exists j, l = repeat 0%N j ++ strip_zeros l
            /\ (strip_zeros l = [] \/ hd 0%N (strip_zeros l) <> 0%N).
Proof.
  induction l as [|[|p] l IH].
  - exists 0%nat. split; [reflexivity | now left].
  - destruct IH as (j & Hl & Hhd). exists (S j). simpl.
    split; [now rewrite <- Hl | exact Hhd].
  - exists 0%nat. split; [reflexivity|]. right. simpl. discriminate.
Qed.

Lemma rev_zeros (j : nat) : rev (repeat 0%N j) = repeat 0%N j.
Proof.
  induction j as [|j IH]; [reflexivity|].
  simpl. rewrite IH. clear IH.
  induction j as [|j IH]; [reflexivity|]. simpl. now rewrite IH.
Qed.

Lemma strip_zeros_last (l : list N) (d : N) :
  d <> 0%N -> strip_zeros (l ++ [d]) <> [].
Proof.
  intros Hd. induction l as [|[|p] l IH]; simpl.
  - destruct d; [congruence | discriminate].
  - exact IH.
  - discriminate.
Qed.

Lemma rev_head_nonzero (ds : list N) :
  hd 0%N ds <> 0%N -> strip_zeros (rev ds) <> [].
Proof.
  destruct ds as [|d ds]; simpl; intros H; [congruence|].
  now apply strip_zeros_last.
Qed.

Lemma normalize_id (ds : list N) (E : Z) :
  hd 0%N ds <> 0%N -> hd 0%N (rev ds) <> 0%N -> normalize ds E = (ds, E).
Proof.
  intros Hhd Hlast. unfold normalize.
  rewrite (strip_zeros_id (rev ds)) by assumption.
  rewrite rev_involutive, (strip_zeros_id ds) by assumption.
  rewrite length_rev. f_equal. lia.
Qed.

Lemma normalize_trailing (ds : list N) (j : nat) (E : Z) :
  normalize (ds ++ repeat 0%N j) E = normalize ds (E + Z.of_nat j).
Proof.
  unfold normalize.
  rewrite rev_app_distr, rev_zeros, strip_zeros_repeat.
  rewrite length_app, repeat_length. f_equal. lia.
Qed.

Lemma normalize_leading (ds : list N) (j : nat) (E : Z) :
  hd 0%N ds <> 0%N ->
  normalize (repeat 0%N j ++ ds) E = normalize ds E.
Proof.
  intros Hhd. unfold normalize.
  pose proof (rev_head_nonzero ds Hhd) as Hne.
  destruct (strip_zeros_split (rev ds)) as (i & Hrev & Htail).
  destruct Htail as [Htail|Htail]; [contradiction|].
  set (tail := strip_zeros (rev ds)) in *.
  assert (Hstrip : strip_zeros (rev (repeat 0%N j ++ ds)) = tail ++ repeat 0%N j).
  { rewrite rev_app_distr, rev_zeros, Hrev, <- app_assoc, strip_zeros_repeat.
    apply strip_zeros_id. destruct tail; [contradiction | exact Htail]. }
  rewrite Hstrip, rev_app_distr, rev_zeros, strip_zeros_repeat.
  rewrite !length_app, !repeat_length. f_equal. lia.
Qed.

Lemma round_decimal_normalize (s : bool) (a b : list N) (E E' : Z) :
  normalize a E = normalize b E' -> round_decimal s a E = round_decimal s b E'.
Proof.
  intros H. unfold round_decimal. now rewrite H.
Qed.

(** ** Rounding a double gives the double *)

Lemma is_double_bounds (m : positive) (e : Z) :
  is_double m e = true ->
  Z.pos m < 2 ^ 53 /\ -1074 <= e <= 971 /\ (e = -1074 \/ 2 ^ 52 <= Z.pos m).
Proof.
  unfold is_double. intros H.
  assert (2 ^ 52 < 2 ^ 53) by (apply Z.pow_lt_mono_r; lia).
  apply orb_prop in H as [H|H].
  - apply andb_prop in H as [H H4]. apply andb_prop in H as [H H3].
    apply andb_prop in H as [H1 H2].
    apply Z.leb_le in H1, H3, H4. apply Z.ltb_lt in H2. lia.
  - apply andb_prop in H as [H1 H2].
    apply Z.ltb_lt in H1. apply Z.eqb_eq in H2. lia.
Qed.

Lemma below_scaled (p q k : Z) :
  -1100 <= k ->
  below p q k = (p * 2 ^ 1100 <? q * 2 ^ (1100 + k)).
Proof.
  intros Hk. unfold below.
  destruct (Z.leb_spec 0 k) as [H|H]; rewrite Z.shiftl_mul_pow2 by lia.
  - rewrite Z.pow_add_r by lia.
    assert (0 < 2 ^ 1100) by (apply Z.pow_pos_nonneg; lia).
    destruct (Z.ltb_spec p (q * 2 ^ k)), (Z.ltb_spec (p * 2 ^ 1100) (q * (2 ^ 1100 * 2 ^ k)));
      try reflexivity; nia.
  - replace 1100 with ((1100 + k) + (- k)) at 1 by lia.
    rewrite Z.pow_add_r by lia.
    assert (0 < 2 ^ (1100 + k)) by (apply Z.pow_pos_nonneg; lia).
    destruct (Z.ltb_spec (p * 2 ^ (- k)) q),
             (Z.ltb_spec (p * (2 ^ (1100 + k) * 2 ^ (- k))) (q * 2 ^ (1100 + k)));
      try reflexivity; nia.
Qed.

Lemma fits_spec (p q E : Z) :
  fits p q E = true <->
  -1074 <= E <= 971
  /\ p * 2 ^ 1100 < q * 2 ^ (1100 + (E + 53))
  /\ (E = -1074 \/ q * 2 ^ (1100 + (E + 52)) <= p * 2 ^ 1100).
Proof.
  unfold fits. split.
  - intros H. apply andb_prop in H as [H H4]. apply andb_prop in H as [H H3].
    apply andb_prop in H as [H1 H2].
    apply Z.leb_le in H1, H2.
    rewrite below_scaled in H3 by lia. apply Z.ltb_lt in H3.
    split; [lia|]. split; [exact H3|].
    apply orb_prop in H4 as [H4|H4].
    + left. now apply Z.eqb_eq.
    + right. rewrite below_scaled in H4 by lia.
      apply negb_true_iff, Z.ltb_ge in H4. exact H4.
  - intros (HE & Hlt & Hge).
    apply andb_true_intro. split; [apply andb_true_intro; split|].
    + apply andb_true_intro. split; apply Z.leb_le; lia.
    + rewrite below_scaled by lia. now apply Z.ltb_lt.
    + destruct Hge as [->|Hge]; [reflexivity|].
      apply orb_true_intro. right.
      rewrite below_scaled by lia. now apply negb_true_iff, Z.ltb_ge.
Qed.

Lemma fits_exact (p q : Z) (m : positive) (e : Z) :
  is_double m e = true -> 0 < q -> exact p q m e -> fits p q e = true.
Proof.
  intros Hd Hq Hx. apply is_double_bounds in Hd as (Hm & He & Hn).
  unfold exact in Hx. apply fits_spec. split; [exact He|].
  assert (Hpow : 0 < 2 ^ (1100 + e)) by (apply Z.pow_pos_nonneg; lia).
  rewrite Hx.
  replace (1100 + (e + 53)) with ((1100 + e) + 53) by lia.
  replace (1100 + (e + 52)) with ((1100 + e) + 52) by lia.
  rewrite (Z.pow_add_r 2 (1100 + e) 53), (Z.pow_add_r 2 (1100 + e) 52) by lia.
  set (K := 2 ^ (1100 + e)) in *.
  assert (HqK : 0 < q * K) by (apply Z.mul_pos_pos; assumption).
  replace (Z.pos m * q * K) with ((q * K) * Z.pos m) by ring.
  replace (q * (K * 2 ^ 53)) with ((q * K) * 2 ^ 53) by ring.
  replace (q * (K * 2 ^ 52)) with ((q * K) * 2 ^ 52) by ring.
  split; [now apply Z.mul_lt_mono_pos_l|].
  destruct Hn as [Hn|Hn]; [now left | right].
  apply Z.mul_le_mono_nonneg_l; lia.
Qed.

Lemma fits_unique (p q E E' : Z) :
  0 < q -> fits p q E = true -> fits p q E' = true -> E = E'.
Proof.
  intros Hq H H'. apply fits_spec in H as (HE & Hlt & Hge).
  apply fits_spec in H' as (HE' & Hlt' & Hge').
  assert (Hmono : forall a b, -1074 <= a -> a < b ->
            q * 2 ^ (1100 + (a + 53)) <= q * 2 ^ (1100 + (b + 52))).
  { intros a b Ha Hab. apply Z.mul_le_mono_nonneg_l; [lia|].
    apply Z.pow_le_mono_r; lia. }
  destruct (Z.lt_trichotomy E E') as [Hc|[Hc|Hc]]; [|exact Hc|].
  - destruct Hge' as [->|Hge']; [lia|].
    pose proof (Hmono E E' ltac:(lia) Hc). lia.
  - destruct Hge as [->|Hge]; [lia|].
    pose proof (Hmono E' E ltac:(lia) Hc). lia.
Qed.

Lemma In_count_up (n : nat) (from z : Z) :
  from <= z < from + Z.of_nat n -> In z (count_up n from).
Proof.
  revert from. induction n as [|n IH]; intros from Hz; [lia|].
  cbn [count_up]. destruct (Z.eq_dec from z) as [->|Hne]; [now left|].
  right. apply IH. lia.
Qed.

Lemma find_exponent_exact (p q : Z) (m : positive) (e : Z) :
  is_double m e = true -> 0 < q -> exact p q m e -> find_exponent p q = Some e.
Proof.
  intros Hd Hq Hx. pose proof (fits_exact p q m e Hd Hq Hx) as Hfit.
  unfold find_exponent.
  destruct (find (fits p q) _) as [E|] eqn:Hfind.
  - apply find_some in Hfind as [_ HE]. f_equal. now apply (fits_unique p q).
  - clear Hfind. destruct (find (fits p q) exponents) as [E|] eqn:Hfind.
    + apply find_some in Hfind as [_ HE]. f_equal. now apply (fits_unique p q).
    + exfalso. pose proof (find_none _ _ Hfind e) as Hnone.
      rewrite Hfit in Hnone. apply is_double_bounds in Hd as (_ & He & _).
      enough (In e exponents) by (specialize (Hnone H); discriminate).
      apply In_count_up. lia.
Qed.

Lemma nearest_even_exact (m den : Z) :
  0 < den -> nearest_even (m * den) den = m.
Proof.
  intros Hden. unfold nearest_even.
  rewrite Z.mod_mul, Z.div_mul by lia.
  simpl. destruct den; try lia; reflexivity.
Qed.

Lemma round_ratio_exact (s : bool) (p q : Z) (m : positive) (e : Z) :
  is_double m e = true -> 0 < q -> exact p q m e ->
  round_ratio s p q = Finite s m e.
Proof.
  intros Hd Hq Hx. unfold round_ratio.
  rewrite (find_exponent_exact p q m e Hd Hq Hx).
  apply is_double_bounds in Hd as (Hm & He & _).
  unfold exact in Hx.
  assert (Hnum : (if e <? 0 then Z.shiftl p (- e) else p)
                 = Z.pos m * (if e <? 0 then q else Z.shiftl q e)).
  { destruct (Z.ltb_spec e 0) as [Hneg|Hpos]; rewrite Z.shiftl_mul_pow2 by lia.
    - replace 1100 with ((- e) + (1100 + e)) in Hx at 1 by lia.
      rewrite Z.pow_add_r in Hx by lia.
      assert (0 < 2 ^ (1100 + e)) by (apply Z.pow_pos_nonneg; lia).
      apply (Z.mul_reg_r _ _ (2 ^ (1100 + e)));
        [now apply Z.neq_sym, Z.lt_neq | rewrite <- Hx; ring].
    - rewrite Z.pow_add_r in Hx by lia.
      assert (0 < 2 ^ 1100) by (apply Z.pow_pos_nonneg; lia).
      apply (Z.mul_reg_r _ _ (2 ^ 1100));
        [now apply Z.neq_sym, Z.lt_neq | rewrite Hx; ring]. }
  cbv zeta. rewrite Hnum, nearest_even_exact.
  - destruct (Z.eqb_spec (Z.pos m) 0); [lia|].
    destruct (Z.eqb_spec (Z.pos m) (2 ^ 53)); [lia|]. reflexivity.
  - destruct (Z.ltb_spec e 0); [exact Hq|].
    rewrite Z.shiftl_mul_pow2 by lia.
    apply Z.mul_pos_pos; [exact Hq | apply Z.pow_pos_nonneg; lia].
Qed.

(** ** The exact decimal of a double *)

Lemma pow10_split (a : Z) : 0 <= a -> 10 ^ a = 2 ^ a * 5 ^ a.
Proof.
  intros Ha. change 10 with (2 * 5). now rewrite Z.pow_mul_l.
Qed.

Lemma exact_of_decimal (N : Z) (j : nat) (m : positive) (e : Z) :
  -1100 <= e ->
  N * 10 ^ Z.of_nat j
  = (if 0 <=? e then Z.pos m * 2 ^ e else Z.pos m * 5 ^ (- e)) ->
  let E := Z.of_nat j + (if 0 <=? e then 0 else e) in
  if 0 <=? E then exact (N * 10 ^ E) 1 m e else exact N (10 ^ (- E)) m e.
Proof.
  intros He HS E. subst E. unfold exact.
  destruct (Z.leb_spec 0 e) as [Hpos|Hneg].
  - rewrite Z.add_0_r. destruct (Z.leb_spec 0 (Z.of_nat j)); [|lia].
    rewrite HS, Z.pow_add_r by lia. ring.
  - set (a := - e) in *. assert (Ha : 0 < a) by lia.
    assert (H5 : 0 < 5 ^ a) by (apply Z.pow_pos_nonneg; lia).
    assert (H10 : 0 < 10 ^ Z.of_nat j) by (apply Z.pow_pos_nonneg; lia).
    replace e with (- a) in * by lia.
    destruct (Z.leb_spec 0 (Z.of_nat j + - a)) as [Hj|Hj].
    + replace (Z.of_nat j) with ((Z.of_nat j + - a) + a) in HS by lia.
      rewrite Z.pow_add_r, (pow10_split a) in HS by lia.
      set (P := 10 ^ (Z.of_nat j + - a)) in *.
      assert (Hm : N * P * 2 ^ a = Z.pos m).
      { apply (Z.mul_reg_r _ _ (5 ^ a)); [lia|]. rewrite <- HS. ring. }
      replace 1100 with (a + (1100 + - a)) at 1 by lia.
      rewrite Z.pow_add_r by lia. rewrite <- Hm. ring.
    + replace (- (Z.of_nat j + - a)) with (a - Z.of_nat j) by lia.
      apply (Z.mul_reg_r _ _ (10 ^ Z.of_nat j)); [lia|].
      replace (Z.pos m * 10 ^ (a - Z.of_nat j) * 2 ^ (1100 + - a) * 10 ^ Z.of_nat j)
        with (Z.pos m * (10 ^ (a - Z.of_nat j) * 10 ^ Z.of_nat j) * 2 ^ (1100 + - a))
        by ring.
      rewrite <- Z.pow_add_r by lia.
      replace (a - Z.of_nat j + Z.of_nat j) with a by lia.
      rewrite (pow10_split a) by lia.
      replace (N * 2 ^ 1100 * 10 ^ Z.of_nat j)
        with (N * 10 ^ Z.of_nat j * 2 ^ 1100) by ring.
      rewrite HS.
      replace 1100 with (a + (1100 + - a)) at 1 by lia.
      rewrite Z.pow_add_r by lia. ring.
Qed.

Lemma good_digits_hd (ds : list N) : good_digits ds -> hd 0%N ds <> 0%N.
Proof. now intros (_ & _ & H). Qed.

Lemma round_decimal_exact (D : list N) (j : nat) (m : positive) (e : Z) :
  is_double m e = true ->
  good_digits D -> hd 0%N (rev D) <> 0%N ->
  digits_value D * 10 ^ Z.of_nat j
  = (if 0 <=? e then Z.pos m * 2 ^ e else Z.pos m * 5 ^ (- e)) ->
  round_decimal false D (Z.of_nat j + (if 0 <=? e then 0 else e))
  = Finite false m e.
Proof.
  intros Hd (Hne & Hall & Hhd) Hlast HS.
  pose proof (is_double_bounds m e Hd) as (_ & He & _).
  pose proof (exact_of_decimal _ j m e ltac:(lia) HS) as Hx. cbv zeta in Hx.
  unfold round_decimal. rewrite normalize_id by assumption.
  destruct D as [|d D]; [contradiction|].
  set (E := Z.of_nat j + (if 0 <=? e then 0 else e)) in *.
  destruct (0 <=? E) eqn:HE.
  - apply round_ratio_exact; [exact Hd | lia | exact Hx].
  - apply round_ratio_exact; [exact Hd | | exact Hx].
    apply Z.pow_pos_nonneg; [lia|]. apply Z.leb_gt in HE. lia.
Qed.

Lemma exact_decimal_spec (m : positive) (e : Z) :
  is_double m e = true ->
  good_digits (fst (exact_decimal m e))
  /\ round_decimal false (fst (exact_decimal m e))
       (snd (exact_decimal m e) - Z.of_nat (length (fst (exact_decimal m e))))
     = Finite false m e.
Proof.
  intros Hd. unfold exact_decimal.
  assert (Hshift : (if 0 <=? e then Z.shiftl (Z.pos m) e else Z.pos m * 5 ^ (- e))
                   = (if 0 <=? e then Z.pos m * 2 ^ e else Z.pos m * 5 ^ (- e))).
  { destruct (Z.leb_spec 0 e); [apply Z.shiftl_mul_pow2; lia | reflexivity]. }
  rewrite Hshift.
  set (S := if 0 <=? e then Z.pos m * 2 ^ e else Z.pos m * 5 ^ (- e)).
  set (q := if 0 <=? e then 0 else e).
  assert (HS : 0 < S).
  { subst S. destruct (Z.leb_spec 0 e).
    - apply Z.mul_pos_pos; [lia | apply Z.pow_pos_nonneg; lia].
    - apply Z.mul_pos_pos; [lia | apply Z.pow_pos_nonneg; lia]. }
  destruct (digits_of_good S HS) as (Hne0 & Hall0 & Hhd0).
  pose proof (digits_of_value S ltac:(lia)) as Hval.
  set (D0 := digits_of S) in *. cbn [fst snd].
  destruct (strip_zeros_split (rev D0)) as (j & Hrev & Htail).
  pose proof (rev_head_nonzero D0 Hhd0) as HT.
  destruct Htail as [Htail|Htail]; [contradiction|].
  set (T := strip_zeros (rev D0)) in *.
  assert (HD0 : D0 = rev T ++ repeat 0%N j).
  { rewrite <- (rev_involutive D0), Hrev, rev_app_distr, rev_zeros. reflexivity. }
  assert (HrevT : rev T <> []).
  { intros H. apply (f_equal (@rev N)) in H. rewrite rev_involutive in H.
    contradiction. }
  assert (Hgood : good_digits (rev T)).
  { repeat split.
    - exact HrevT.
    - rewrite HD0 in Hall0. now apply Forall_app in Hall0 as [H _].
    - rewrite HD0 in Hhd0. destruct (rev T); [contradiction | exact Hhd0]. }
  split; [exact Hgood|].
  replace (Z.of_nat (length D0) + q - Z.of_nat (length (rev T)))
    with (Z.of_nat j + q).
  - apply round_decimal_exact; try assumption.
    + now rewrite rev_involutive.
    + fold S. rewrite <- Hval, HD0, digits_value_app, repeat_length,
        digits_value_zeros. lia.
  - rewrite HD0, length_app, repeat_length. lia.
Qed.

(** ** The shortest decimal of a double *)

Lemma number_eqb_eq (x y : number) : number_eqb x y = true -> x = y.
Proof.
  destruct x as [|s|s|s m e], y as [|s'|s'|s' m' e']; simpl;
    try discriminate; intros H.
  - reflexivity.
  - apply Bool.eqb_prop in H. now subst.
  - apply Bool.eqb_prop in H. now subst.
  - apply andb_prop in H as [H He]. apply andb_prop in H as [Hs Hm].
    apply Bool.eqb_prop in Hs. apply Pos.eqb_eq in Hm. apply Z.eqb_eq in He.
    now subst.
Qed.

Lemma first_some_some {A B} (f : A -> option B) (l : list A) (b : B) :
  first_some f l = Some b -> exists a, In a l /\ f a = Some b.
Proof.
  induction l as [|a l IH]; simpl; [discriminate|].
  destruct (f a) as [b'|] eqn:Hf.
  - intros [= <-]. exists a. split; [now left | exact Hf].
  - intros H. destruct (IH H) as (a' & Hin & Ha'). exists a'.
    split; [now right | exact Ha'].
Qed.

Lemma Forall_firstn_digits (P : N -> Prop) (k : nat) (l : list N) :
  Forall P l -> Forall P (firstn k l).
Proof.
  revert l. induction k as [|k IH]; intros [|a l] H; simpl; try constructor.
  - now inversion H.
  - apply IH. now inversion H.
Qed.

Lemma good_digits_firstn (D : list N) (k : nat) :
  good_digits D -> (1 <= k)%nat -> good_digits (firstn k D).
Proof.
  intros (Hne & Hall & Hhd) Hk.
  destruct D as [|d D]; [contradiction|].
  destruct k as [|k]; [lia|]. cbn [firstn]. repeat split.
  - discriminate.
  - inversion Hall; subst. constructor; [assumption|].
    now apply Forall_firstn_digits.
  - exact Hhd.
Qed.

Lemma shortest_at_spec (x : number) (D : list N) (n : Z) (k : nat)
      (c : list N * Z) :
  good_digits D -> (1 <= k)%nat ->
  shortest_at x D n k = Some c ->
  good_digits (fst c) /\ rounds_to x c = true.
Proof.
  intros HD Hk. unfold shortest_at, candidates.
  set (down := (firstn k D, n)).
  set (up := if digits_value (firstn k D) + 1 =? 10 ^ Z.of_nat k
             then (digits_of (10 ^ (Z.of_nat k - 1)), n + 1)
             else (digits_of (digits_value (firstn k D) + 1), n)).
  assert (Hdown : good_digits (fst down)) by (now apply good_digits_firstn).
  assert (Hup : good_digits (fst up)).
  { subst up. destruct (_ =? _); cbn [fst]; apply digits_of_good.
    - apply Z.pow_pos_nonneg; lia.
    - pose proof (digits_value_nonneg (firstn k D)). lia. }
  destruct (digits_value (skipn k D) =? 0).
  - destruct (rounds_to x down) eqn:Hr; [|discriminate].
    intros [= <-]. now split.
  - destruct (rounds_to x down) eqn:Hr, (rounds_to x up) eqn:Hr';
      try discriminate; intros [= <-].
    + destruct (closer_is_up D k); now split.
    + now split.
    + now split.
Qed.

Lemma shortest_decimal_spec (m : positive) (e : Z) :
  is_double m e = true ->
  good_digits (fst (shortest_decimal m e))
  /\ round_decimal false (fst (shortest_decimal m e))
       (snd (shortest_decimal m e)
        - Z.of_nat (length (fst (shortest_decimal m e))))
     = Finite false m e.
Proof.
  intros Hd. pose proof (exact_decimal_spec m e Hd) as (Hgood & Hexact).
  unfold shortest_decimal.
  destruct (exact_decimal m e) as [D n]. cbn [fst snd] in *.
  destruct (first_some _ _) as [c|] eqn:Hfirst.
  - apply first_some_some in Hfirst as (k & Hin & Hk).
    apply in_seq in Hin.
    destruct (shortest_at_spec _ D n k c Hgood ltac:(lia) Hk) as (Hc & Hr).
    split; [exact Hc|]. now apply number_eqb_eq.
  - now split.
Qed.

Lemma round_decimal_sign (s : bool) (ds : list N) (E : Z) (m : positive) (e : Z) :
  round_decimal false ds E = Finite false m e ->
  round_decimal s ds E = Finite s m e.
Proof.
  unfold round_decimal. destruct (normalize ds E) as [[|d ds'] E'];
    [discriminate|].
  cbv zeta.
  assert (H : forall p q, round_ratio false p q = Finite false m e ->
                          round_ratio s p q = Finite s m e).
  { intros p q. unfold round_ratio. destruct (find_exponent p q); [|discriminate].
    cbv zeta. destruct (_ =? 0); [discriminate|].
    destruct (_ =? 2 ^ 53).
    - destruct (_ =? 971); [discriminate|]. now intros [= <- <-].
    - now intros [= <- <-]. }
  destruct (0 <=? E'); apply H.
Qed.

(** ** Reading back the digits *)

Lemma span_digits_text (ds : list N) (rest : jsstring) :
  Forall (fun d => (d < 10)%N) ds -> no_digit rest = true ->
  span_digits (digits_text ds ++ rest) = (ds, rest).
Proof.
  intros Hall Hrest. induction Hall as [|d ds Hd _ IH].
  - destruct rest as [|c rest]; [reflexivity|].
    simpl in *. apply negb_true_iff in Hrest. now rewrite Hrest.
  - cbn [digits_text map app span_digits]. fold (digits_text ds).
    assert (Hdig : is_digit (48 + d) = true).
    { unfold is_digit. apply andb_true_intro.
      split; apply N.leb_le; lia. }
    rewrite Hdig, IH. f_equal. f_equal. lia.
Qed.

Lemma zeros_text (j : nat) : repeat 48%N j = digits_text (repeat 0%N j).
Proof.
  induction j as [|j IH]; [reflexivity|]. simpl. now rewrite IH.
Qed.

Lemma digits_text_app (a b : list N) :
  digits_text (a ++ b) = digits_text a ++ digits_text b.
Proof. apply map_app. Qed.

Lemma Forall_zeros (j : nat) : Forall (fun d => (d < 10)%N) (repeat 0%N j).
Proof.
  induction j; simpl; constructor; [lia | assumption].
Qed.

Lemma delimited_no_digit (rest : jsstring) :
  delimited rest = true -> no_digit rest = true.
Proof.
  destruct rest as [|c rest]; [reflexivity|]. simpl. intros H.
  apply andb_prop in H as [H _]. now apply andb_prop in H as [H _].
Qed.

Lemma parse_fraction_none (rest : jsstring) :
  delimited rest = true -> parse_fraction rest = Some ([], rest).
Proof.
  destruct rest as [|c rest]; [reflexivity|]. simpl. intros H.
  apply andb_prop in H as [H _]. apply andb_prop in H as [_ H].
  apply negb_true_iff, N.eqb_neq in H.
  unfold parse_fraction.
  destruct c as [|p]; [reflexivity|].
  do 6 (destruct p as [p|p|]; try reflexivity). congruence.
Qed.

Lemma parse_exponent_none (rest : jsstring) :
  delimited rest = true -> parse_exponent rest = Some (0, rest).
Proof.
  destruct rest as [|c rest]; [reflexivity|]. simpl. intros H.
  apply andb_prop in H as [_ H]. apply negb_true_iff in H.
  now rewrite H.
Qed.

Lemma parse_exponent_text (E : Z) (rest : jsstring) :
  E <> 0 -> no_digit rest = true ->
  parse_exponent (exponent_text E ++ rest) = Some (E, rest).
Proof.
  intros HE Hrest. unfold exponent_text.
  destruct (digits_of_good (Z.abs E) ltac:(lia)) as (Hne & Hall & _).
  pose proof (digits_of_value (Z.abs E) ltac:(lia)) as Hval.
  destruct (Z.ltb_spec E 0) as [Hneg|Hpos].
  - change (js "e-" ++ ?t) with (101%N :: 45%N :: t).
    cbn [app parse_exponent is_e N.eqb Pos.eqb orb].
    rewrite span_digits_text by assumption.
    destruct (digits_of (Z.abs E)) as [|d ds]; [contradiction|].
    rewrite Hval. f_equal. f_equal. lia.
  - change (js "e+" ++ ?t) with (101%N :: 43%N :: t).
    cbn [app parse_exponent is_e N.eqb Pos.eqb orb].
    rewrite span_digits_text by assumption.
    destruct (digits_of (Z.abs E)) as [|d ds]; [contradiction|].
    rewrite Hval. f_equal. f_equal. lia.
Qed.

Lemma parse_digits_parts (negative : bool) (s s1 s2 s3 : jsstring)
      (d : N) (more frac : list N) (X : Z) :
  span_digits s = (d :: more, s1) ->
  (d <> 0%N \/ more = []) ->
  parse_fraction s1 = Some (frac, s2) ->
  parse_exponent s2 = Some (X, s3) ->
  parse_digits negative s
  = Some (round_decimal negative ((d :: more) ++ frac)
            (X - Z.of_nat (length frac)), s3).
Proof.
  intros Hspan Hzero Hfrac Hexp. unfold parse_digits.
  rewrite Hspan.
  assert (Hcheck : ((d =? 0)%N
                    && negb match more with [] => true | _ :: _ => false end)
                   = false).
  { destruct Hzero as [Hd| ->].
    - apply N.eqb_neq in Hd. now rewrite Hd.
    - apply andb_false_r. }
  rewrite Hcheck, Hfrac, Hexp. reflexivity.
Qed.

Lemma parse_fraction_text (ds : list N) (rest : jsstring) :
  ds <> [] -> Forall (fun d => (d < 10)%N) ds -> no_digit rest = true ->
  parse_fraction (js "." ++ digits_text ds ++ rest) = Some (ds, rest).
Proof.
  intros Hne Hall Hrest.
  change (js "." ++ ?t) with (46%N :: t). unfold parse_fraction.
  rewrite span_digits_text by assumption.
  destruct ds; [contradiction | reflexivity].
Qed.

Lemma no_digit_point (t : jsstring) : no_digit (js "." ++ t) = true.
Proof. reflexivity. Qed.

Lemma no_digit_exponent (E : Z) (t : jsstring) :
  no_digit (exponent_text E ++ t) = true.
Proof. unfold exponent_text. destruct (E <? 0); reflexivity. Qed.

Lemma parse_fraction_exponent (E : Z) (t : jsstring) :
  parse_fraction (exponent_text E ++ t) = Some ([], exponent_text E ++ t).
Proof. unfold exponent_text. destruct (E <? 0); reflexivity. Qed.

(** ** Each notation of [Number::toString] is read back *)

Lemma parse_integer_notation (negative : bool) (D : list N) (j : nat)
      (rest : jsstring) :
  good_digits D -> delimited rest = true ->
  parse_digits negative ((digits_text D ++ repeat 48%N j) ++ rest)
  = Some (round_decimal negative D (Z.of_nat j), rest).
Proof.
  intros (Hne & Hall & Hhd) Hrest.
  destruct D as [|d D]; [contradiction|].
  rewrite zeros_text, <- digits_text_app.
  rewrite (parse_digits_parts negative _ rest rest rest d (D ++ repeat 0%N j) [] 0).
  - f_equal. f_equal. apply round_decimal_normalize.
    rewrite app_nil_r. change (d :: D ++ repeat 0%N j) with ((d :: D) ++ repeat 0%N j).
    rewrite normalize_trailing. reflexivity.
  - change (d :: D ++ repeat 0%N j) with ((d :: D) ++ repeat 0%N j).
    apply span_digits_text.
    + apply Forall_app. split; [exact Hall | apply Forall_zeros].
    + now apply delimited_no_digit.
  - left. exact Hhd.
  - now apply parse_fraction_none.
  - now apply parse_exponent_none.
Qed.

Lemma parse_point_notation (negative : bool) (D1 D2 : list N) (rest : jsstring) :
  good_digits D1 -> D2 <> [] -> Forall (fun d => (d < 10)%N) D2 ->
  delimited rest = true ->
  parse_digits negative ((digits_text D1 ++ js "." ++ digits_text D2) ++ rest)
  = Some (round_decimal negative (D1 ++ D2) (- Z.of_nat (length D2)), rest).
Proof.
  intros (Hne & Hall & Hhd) Hne2 Hall2 Hrest.
  destruct D1 as [|d D1]; [contradiction|].
  rewrite <- !app_assoc.
  rewrite (parse_digits_parts negative _ (js "." ++ digits_text D2 ++ rest)
             rest rest d D1 D2 0).
  - reflexivity.
  - apply span_digits_text; [exact Hall | apply no_digit_point].
  - left. exact Hhd.
  - apply parse_fraction_text; try assumption. now apply delimited_no_digit.
  - now apply parse_exponent_none.
Qed.

Lemma parse_small_notation (negative : bool) (D : list N) (j : nat)
      (rest : jsstring) :
  good_digits D -> delimited rest = true ->
  parse_digits negative ((js "0." ++ repeat 48%N j ++ digits_text D) ++ rest)
  = Some (round_decimal negative D (- Z.of_nat (j + length D)), rest).
Proof.
  intros (Hne & Hall & Hhd) Hrest.
  rewrite zeros_text, <- digits_text_app.
  change (js "0." ++ ?t) with (digits_text [0%N] ++ js "." ++ t).
  rewrite <- !app_assoc.
  rewrite (parse_digits_parts negative _
             (js "." ++ digits_text (repeat 0%N j ++ D) ++ rest)
             rest rest 0%N [] (repeat 0%N j ++ D) 0).
  - f_equal. f_equal. rewrite length_app, repeat_length.
    apply round_decimal_normalize.
    change ([0%N] ++ repeat 0%N j ++ D) with (repeat 0%N (S j) ++ D).
    now apply normalize_leading.
  - apply span_digits_text; [repeat constructor; lia | apply no_digit_point].
  - now right.
  - apply parse_fraction_text.
    + intros H. apply app_eq_nil in H as [_ H]. contradiction.
    + apply Forall_app. split; [apply Forall_zeros | exact Hall].
    + now apply delimited_no_digit.
  - now apply parse_exponent_none.
Qed.

Lemma parse_exponent_notation (negative : bool) (d : N) (more : list N) (E : Z)
      (rest : jsstring) :
  good_digits (d :: more) -> E <> 0 -> delimited rest = true ->
  parse_digits negative
    (match more with
     | [] => digits_text [d] ++ exponent_text E
     | _ :: _ => digits_text [d] ++ js "." ++ digits_text more ++ exponent_text E
     end ++ rest)
  = Some (round_decimal negative (d :: more) (E - Z.of_nat (length more)), rest).
Proof.
  intros (Hne & Hall & Hhd) HE Hrest.
  pose proof (delimited_no_digit rest Hrest) as Hnd.
  inversion Hall as [|? ? Hd Hmore]; subst.
  destruct more as [|d' more].
  - rewrite <- app_assoc.
    rewrite (parse_digits_parts negative _ (exponent_text E ++ rest)
               (exponent_text E ++ rest) rest d [] [] E).
    + reflexivity.
    + apply span_digits_text; [repeat constructor; assumption|].
      apply no_digit_exponent.
    + now right.
    + apply parse_fraction_exponent.
    + now apply parse_exponent_text.
  - rewrite <- !app_assoc.
    rewrite (parse_digits_parts negative _
               (js "." ++ digits_text (d' :: more) ++ exponent_text E ++ rest)
               (exponent_text E ++ rest) rest d [] (d' :: more) E).
    + reflexivity.
    + apply span_digits_text; [repeat constructor; assumption|].
      apply no_digit_point.
    + now right.
    + apply parse_fraction_text; [discriminate | assumption|].
      apply no_digit_exponent.
    + now apply parse_exponent_text.
Qed.

Lemma parse_digits_format (negative : bool) (D : list N) (n : Z)
      (rest : jsstring) :
  good_digits D -> delimited rest = true ->
  parse_digits negative (format_decimal D n ++ rest)
  = Some (round_decimal negative D (n - Z.of_nat (length D)), rest).
Proof.
  intros HD Hrest. unfold format_decimal.
  set (k := Z.of_nat (length D)).
  destruct ((k <=? n) && (n <=? 21)) eqn:H1.
  - apply andb_prop in H1 as [Hk _]. apply Z.leb_le in Hk.
    rewrite parse_integer_notation by assumption.
    rewrite Z2Nat.id by lia. reflexivity.
  - destruct ((0 <? n) && (n <=? 21)) eqn:H2.
    + apply andb_prop in H2 as [Hn Hn21]. apply Z.ltb_lt in Hn.
      apply Z.leb_le in Hn21.
      assert (Hnk : n < k).
      { apply andb_false_iff in H1 as [H1|H1];
          [apply Z.leb_gt in H1; lia | apply Z.leb_gt in H1; lia]. }
      assert (Hlen : length (skipn (Z.to_nat n) D) = (length D - Z.to_nat n)%nat)
        by apply length_skipn.
      rewrite parse_point_notation.
      * rewrite firstn_skipn, Hlen. f_equal. f_equal. f_equal. lia.
      * apply good_digits_firstn; [exact HD | lia].
      * intros H. rewrite H in Hlen. simpl in Hlen. lia.
      * destruct HD as (_ & Hall & _).
        rewrite <- (firstn_skipn (Z.to_nat n) D) in Hall.
        now apply Forall_app in Hall as [_ H].
      * exact Hrest.
    + destruct ((-6 <? n) && (n <=? 0)) eqn:H3.
      * apply andb_prop in H3 as [_ Hn0]. apply Z.leb_le in Hn0.
        rewrite parse_small_notation by assumption.
        f_equal. f_equal. f_equal. lia.
      * assert (HE : n - 1 <> 0).
        { intros HE. assert (n = 1) by lia. subst n.
          apply andb_false_iff in H2 as [H2|H2]; discriminate H2. }
        fold (exponent_text (n - 1)).
        destruct D as [|d more]; [now destruct HD|].
        pose proof (parse_exponent_notation negative d more (n - 1) rest HD HE Hrest)
          as Hparse.
        destruct more as [|d' more].
        -- rewrite Hparse. f_equal. f_equal. f_equal. subst k. simpl. lia.
        -- rewrite Hparse. f_equal. f_equal. f_equal. subst k.
           cbn [length]. lia.
Qed.

(** ** Round trip of numbers *)

Lemma is_digit_unit (d : N) : (d < 10)%N -> is_digit (48 + d) = true.
Proof.
  intros Hd. unfold is_digit. apply andb_true_intro.
  split; apply N.leb_le; lia.
Qed.

Lemma format_decimal_head (D : list N) (n : Z) :
  good_digits D ->
  exists c t, format_decimal D n = c :: t /\ is_digit c = true.
Proof.
  intros (Hne & Hall & _). destruct D as [|d D]; [contradiction|].
  inversion Hall as [|? ? Hd _]; subst.
  unfold format_decimal.
  destruct ((Z.of_nat (length (d :: D)) <=? n) && (n <=? 21)).
  - eexists; eexists. split; [reflexivity | now apply is_digit_unit].
  - destruct ((0 <? n) && (n <=? 21)) eqn:H2.
    + apply andb_prop in H2 as [Hn _]. apply Z.ltb_lt in Hn.
      destruct (Z.to_nat n) as [|i] eqn:Hi; [lia|].
      eexists; eexists. split; [reflexivity | now apply is_digit_unit].
    + destruct ((-6 <? n) && (n <=? 0)).
      * eexists; eexists. split; reflexivity.
      * destruct D; eexists; eexists;
          (split; [reflexivity | now apply is_digit_unit]).
Qed.

Lemma is_digit_not_minus (c : N) : is_digit c = true -> (c =? 45)%N = false.
Proof.
  unfold is_digit. intros H. apply andb_prop in H as [H _].
  apply N.leb_le in H. apply N.eqb_neq. lia.
Qed.

Lemma parse_number_NumberToString (x : number) (rest : jsstring) :
  representable_number x = true -> delimited rest = true ->
  parse_number (NumberToString x ++ rest) = Some (x, rest).
Proof.
  intros Hx Hrest. destruct x as [|s|[|]|s m e]; try discriminate Hx.
  - change (NumberToString (Zero false) ++ rest)
      with (digits_text [0%N] ++ rest).
    change (parse_number (digits_text [0%N] ++ rest))
      with (parse_digits false (digits_text [0%N] ++ rest)).
    rewrite (parse_digits_parts false _ rest rest rest 0%N [] [] 0).
    + reflexivity.
    + apply span_digits_text; [repeat constructor; lia|].
      now apply delimited_no_digit.
    + now right.
    + now apply parse_fraction_none.
    + now apply parse_exponent_none.
  - simpl in Hx. pose proof (shortest_decimal_spec m e Hx) as (Hgood & Hround).
    unfold NumberToString.
    destruct (shortest_decimal m e) as [D n]. cbn [fst snd] in *.
    destruct s.
    + change ((js "-" ++ format_decimal D n) ++ rest)
        with (45%N :: (format_decimal D n ++ rest)).
      change (parse_number (45%N :: ?t)) with (parse_digits true t).
      rewrite parse_digits_format by assumption.
      now rewrite (round_decimal_sign true _ _ m e Hround).
    + destruct (format_decimal_head D n Hgood) as (c & t & Ht & Hc).
      cbn [app].
      assert (E : parse_number (format_decimal D n ++ rest)
                  = parse_digits false (format_decimal D n ++ rest)).
      { rewrite Ht. cbn [app parse_number].
        now rewrite (is_digit_not_minus c Hc). }
      rewrite E, parse_digits_format by assumption.
      now rewrite Hround.
Qed.

Lemma NumberToString_start (x : number) :
  representable_number x = true ->
  exists c t, NumberToString x = c :: t /\ number_start c = true.
Proof.
  intros Hx. destruct x as [|s|[|]|s m e]; try discriminate Hx.
  - eexists; eexists. split; reflexivity.
  - simpl in Hx. pose proof (shortest_decimal_spec m e Hx) as (Hgood & _).
    unfold NumberToString.
    destruct (shortest_decimal m e) as [D n]. cbn [fst] in *.
    destruct s.
    + eexists; eexists. split; reflexivity.
    + destruct (format_decimal_head D n Hgood) as (c & t & Ht & Hc).
      exists c, t. split; [now rewrite Ht|].
      unfold number_start. now rewrite Hc.
Qed.

(** ** Round trip of string literals *)

Lemma hex_value_digit (n : N) :
  (n < 16)%N -> hex_value (hex_digit n) = Some n.
Proof.
  intros Hn. unfold hex_digit, hex_value.
  destruct (N.ltb_spec n 10) as [H|H].
  - assert (H1 : (48 <=? 48 + n)%N = true) by (apply N.leb_le; lia).
    assert (H2 : (48 + n <=? 57)%N = true) by (apply N.leb_le; lia).
    rewrite H1, H2. cbn [andb]. f_equal. lia.
  - assert (H1 : (87 + n <=? 57)%N = false) by (apply N.leb_gt; lia).
    assert (H2 : (97 <=? 87 + n)%N = true) by (apply N.leb_le; lia).
    assert (H3 : (87 + n <=? 102)%N = true) by (apply N.leb_le; lia).
    rewrite H1, andb_false_r, H2, H3. cbn [andb]. f_equal. lia.
Qed.

Lemma hex4_digits (c : N) :
  (c < 65536)%N ->
  hex4 (hex_digit (c / 4096 mod 16)) (hex_digit (c / 256 mod 16))
       (hex_digit (c / 16 mod 16)) (hex_digit (c mod 16)) = Some c.
Proof.
  intros Hc. unfold hex4.
  rewrite !hex_value_digit by (apply N.mod_lt; lia).
  f_equal. zify. Z.to_euclidean_division_equations. lia.
Qed.

Lemma parse_chars_escape (c : N) (t : jsstring) :
  (c < 65536)%N ->
  parse_chars (UnicodeEscape c ++ t) = push c (parse_chars t).
Proof.
  intros Hc. unfold UnicodeEscape.
  change (js "\u" ++ ?l) with (92%N :: 117%N :: l).
  cbn [app parse_chars N.eqb Pos.eqb].
  now rewrite hex4_digits.
Qed.

Lemma parse_chars_raw (c : N) (t : jsstring) :
  c <> 34%N -> c <> 92%N -> (32 <= c)%N ->
  parse_chars (c :: t) = push c (parse_chars t).
Proof.
  intros H1 H2 H3. cbn [parse_chars].
  apply N.eqb_neq in H1, H2. rewrite H1, H2.
  assert (H : (c <? 32)%N = false) by (apply N.ltb_ge; lia).
  now rewrite H.
Qed.

Lemma parse_chars_quote_unit (c : N) (t : jsstring) :
  parse_chars (quote_unit c ++ t) = push c (parse_chars t).
Proof.
  unfold quote_unit.
  destruct (N.eqb_spec c 8) as [->|H8]; [reflexivity|].
  destruct (N.eqb_spec c 9) as [->|H9]; [reflexivity|].
  destruct (N.eqb_spec c 10) as [->|H10]; [reflexivity|].
  destruct (N.eqb_spec c 12) as [->|H12]; [reflexivity|].
  destruct (N.eqb_spec c 13) as [->|H13]; [reflexivity|].
  destruct (N.eqb_spec c 34) as [->|H34]; [reflexivity|].
  destruct (N.eqb_spec c 92) as [->|H92]; [reflexivity|].
  destruct (N.ltb_spec c 32) as [Hlt|Hge].
  - apply parse_chars_escape. lia.
  - now apply parse_chars_raw.
Qed.

Lemma surrogate_bounds (c : N) :
  is_leading_surrogate c = true \/ is_trailing_surrogate c = true ->
  (c < 65536)%N /\ c <> 34%N /\ c <> 92%N /\ (32 <= c)%N.
Proof.
  unfold is_leading_surrogate, is_trailing_surrogate.
  intros [H|H]; apply andb_prop in H as [H1 H2];
    apply N.leb_le in H1, H2; lia.
Qed.

Lemma parse_chars_quote_units_bounded (n : nat) (s rest : jsstring) :
  (length s <= n)%nat ->
  parse_chars (quote_units s ++ 34%N :: rest) = Some (s, rest).
Proof.
  revert s. induction n as [|n IH]; intros s Hlen.
  - destruct s; [reflexivity | simpl in Hlen; lia].
  - destruct s as [|c s]; [reflexivity|].
    simpl in Hlen. cbn [quote_units].
    destruct (is_leading_surrogate c) eqn:Hlead.
    + destruct (surrogate_bounds c (or_introl Hlead)) as (Hc & H34 & H92 & H32).
      destruct s as [|d s].
      * rewrite parse_chars_escape by exact Hc. reflexivity.
      * destruct (is_trailing_surrogate d) eqn:Htrail.
        -- destruct (surrogate_bounds d (or_intror Htrail)) as (_ & D34 & D92 & D32).
           cbn [app].
           rewrite parse_chars_raw, parse_chars_raw by assumption.
           rewrite IH by (simpl in Hlen; lia). reflexivity.
        -- rewrite <- app_assoc, parse_chars_escape by exact Hc.
           rewrite IH by lia. reflexivity.
    + destruct (is_trailing_surrogate c) eqn:Htrail.
      * destruct (surrogate_bounds c (or_intror Htrail)) as (Hc & _).
        rewrite <- app_assoc, parse_chars_escape by exact Hc.
        rewrite IH by lia. reflexivity.
      * rewrite <- app_assoc, parse_chars_quote_unit.
        rewrite IH by lia. reflexivity.
Qed.

Lemma parse_chars_quote_units (s rest : jsstring) :
  parse_chars (quote_units s ++ 34%N :: rest) = Some (s, rest).
Proof.
  now apply (parse_chars_quote_units_bounded (length s)).
Qed.

(** ** Induction on values *)

Lemma value_nested_ind (P : value -> Prop) :
  P VUndefined -> P VNull -> (forall b, P (VBool b)) ->
  (forall x, P (VNumber x)) -> (forall n, P (VBigInt n)) ->
  (forall s, P (VString s)) ->
  (forall elems, Forall P elems -> P (VArray elems)) ->
  (forall props, Forall (fun kv => P (snd kv)) props -> P (VObject props)) ->
  forall v, P v.
Proof.
  intros Hu Hn Hb Hnum Hbig Hs Harr Hobj.
  fix IH 1.
  intros [| |b|x|n|s|elems|props];
    [exact Hu | exact Hn | apply Hb | apply Hnum | apply Hbig | apply Hs | | ].
  - apply Harr. induction elems as [|v elems IHl]; constructor.
    + apply IH.
    + exact IHl.
  - apply Hobj. induction props as [|[k v] props IHl]; constructor.
    + apply IH.
    + exact IHl.
Qed.

(** ** One step of the parser *)

Lemma value_start_facts (c : N) :
  value_start c = true ->
  is_ws c = false /\ (c =? 93)%N = false /\ (c =? 125)%N = false.
Proof.
  unfold value_start, number_start, is_digit, is_ws. intros H.
  assert (Hc : ((48 <= c <= 57) \/ c = 45 \/ c = 110 \/ c = 116 \/ c = 102
                \/ c = 34 \/ c = 91 \/ c = 123)%N).
  { repeat (apply orb_prop in H as [H|H]);
      try (apply N.eqb_eq in H; lia).
    apply andb_prop in H as [H1 H2]. apply N.leb_le in H1, H2. lia. }
  repeat split.
  - repeat (apply orb_false_intro); apply N.eqb_neq; lia.
  - apply N.eqb_neq; lia.
  - apply N.eqb_neq; lia.
Qed.

Lemma skip_ws_start (t rest : jsstring) :
  starts_value t = true -> skip_ws (t ++ rest) = t ++ rest.
Proof.
  destruct t as [|c t]; [discriminate|]. simpl. intros H.
  apply value_start_facts in H as (H & _). now rewrite H.
Qed.

Lemma parse_value_number (fuel : nat) (c : N) (t : jsstring) :
  number_start c = true ->
  parse_value (S fuel) (c :: t) = pack VNumber (parse_number (c :: t)).
Proof.
  intros H.
  assert (Hv : value_start c = true) by (unfold value_start; now rewrite H).
  destruct (value_start_facts c Hv) as (Hws & _).
  assert (Hc : ((48 <= c <= 57) \/ c = 45)%N).
  { unfold number_start, is_digit in H. apply orb_prop in H as [H|H].
    - apply andb_prop in H as [H1 H2]. apply N.leb_le in H1, H2. lia.
    - apply N.eqb_eq in H. lia. }
  cbn [parse_value]. unfold parse_value_with. cbn [skip_ws]. rewrite Hws.
  assert (H1 : (c =? 110)%N = false) by (apply N.eqb_neq; lia).
  assert (H2 : (c =? 116)%N = false) by (apply N.eqb_neq; lia).
  assert (H3 : (c =? 102)%N = false) by (apply N.eqb_neq; lia).
  assert (H4 : (c =? 34)%N = false) by (apply N.eqb_neq; lia).
  assert (H5 : (c =? 91)%N = false) by (apply N.eqb_neq; lia).
  assert (H6 : (c =? 123)%N = false) by (apply N.eqb_neq; lia).
  now rewrite H1, H2, H3, H4, H5, H6.
Qed.

Lemma parse_value_string (fuel : nat) (t : jsstring) :
  parse_value (S fuel) (34%N :: t) = pack VString (parse_chars t).
Proof. reflexivity. Qed.

Lemma parse_value_array (fuel : nat) (c : N) (t : jsstring) :
  value_start c = true ->
  parse_value (S fuel) (91%N :: c :: t)
  = pack VArray (parse_elements fuel (c :: t)).
Proof.
  intros H. destruct (value_start_facts c H) as (Hws & H93 & _).
  cbn [parse_value]. unfold parse_value_with.
  cbn [skip_ws is_ws N.eqb Pos.eqb orb]. now rewrite Hws, H93.
Qed.

Lemma parse_value_object (fuel : nat) (t : jsstring) :
  parse_value (S fuel) (123%N :: 34%N :: t)
  = pack (fun ms => VObject (fold_left CreateDataProperty ms []))
         (parse_members fuel (34%N :: t)).
Proof. reflexivity. Qed.

Lemma parse_elements_last (fuel : nat) (s rest : jsstring) (v : value) :
  parse_value fuel s = Some (v, 93%N :: rest) ->
  parse_elements (S fuel) s = Some ([v], rest).
Proof.
  intros H. cbn [parse_elements]. unfold parse_elements_with. now rewrite H.
Qed.

Lemma parse_elements_comma (fuel : nat) (s rest : jsstring) (v : value) :
  parse_value fuel s = Some (v, 44%N :: rest) ->
  parse_elements (S fuel) s
  = match parse_elements fuel rest with
    | Some (vs, rest') => Some (v :: vs, rest')
    | None => None
    end.
Proof.
  intros H. cbn [parse_elements]. unfold parse_elements_with. now rewrite H.
Qed.

Lemma member_string_split (k s : jsstring) :
  QuoteJSONString k ++ js ":" ++ s
  = 34%N :: (quote_units k ++ 34%N :: 58%N :: s).
Proof.
  unfold QuoteJSONString. cbn [app]. f_equal. now rewrite <- app_assoc.
Qed.

Lemma parse_members_last (fuel : nat) (k s rest : jsstring) (v : value) :
  parse_value fuel s = Some (v, 125%N :: rest) ->
  parse_members (S fuel) (QuoteJSONString k ++ js ":" ++ s)
  = Some ([(k, v)], rest).
Proof.
  intros H. rewrite member_string_split.
  cbn [parse_members]. unfold parse_members_with.
  cbn [skip_ws is_ws N.eqb Pos.eqb orb].
  rewrite parse_chars_quote_units.
  cbn [skip_ws is_ws N.eqb Pos.eqb orb]. now rewrite H.
Qed.

Lemma parse_members_comma (fuel : nat) (k s rest : jsstring) (v : value) :
  parse_value fuel s = Some (v, 44%N :: rest) ->
  parse_members (S fuel) (QuoteJSONString k ++ js ":" ++ s)
  = match parse_members fuel rest with
    | Some (ms, rest') => Some ((k, v) :: ms, rest')
    | None => None
    end.
Proof.
  intros H. rewrite member_string_split.
  cbn [parse_members]. unfold parse_members_with.
  cbn [skip_ws is_ws N.eqb Pos.eqb orb].
  rewrite parse_chars_quote_units.
  cbn [skip_ws is_ws N.eqb Pos.eqb orb]. now rewrite H.
Qed.

(** ** Objects are rebuilt in enumeration order *)

Lemma has_key_absent (k : jsstring) (o : list (jsstring * value)) :
  Forall (fun k' => jsstring_eqb k k' = false) (map fst o) ->
  has_key k o = false.
Proof.
  induction o as [|[k' v'] o IH]; simpl; intros H; [reflexivity|].
  inversion H as [|? ? Hk Ho]; subst. simpl in Hk.
  now rewrite Hk, IH.
Qed.

Lemma insert_new_last (k : jsstring) (v : value) (o : list (jsstring * value)) :
  Forall (fun k' => comes_before k k' = false) (map fst o) ->
  insert_new k v o = o ++ [(k, v)].
Proof.
  induction o as [|[k' v'] o IH]; simpl; intros H; [reflexivity|].
  inversion H as [|? ? Hk Ho]; subst. simpl in Hk.
  now rewrite Hk, IH.
Qed.

Lemma own_keys_ordered_middle (l1 l2 : list jsstring) (k : jsstring) :
  own_keys_ordered (l1 ++ k :: l2) = true ->
  Forall (fun k' => jsstring_eqb k k' = false /\ comes_before k k' = false) l1.
Proof.
  induction l1 as [|a l1 IH]; simpl; intros H; constructor.
  - apply andb_prop in H as [H _].
    rewrite forallb_app in H. apply andb_prop in H as [_ H].
    simpl in H. apply andb_prop in H as [H _].
    apply andb_prop in H as [H1 H2].
    now rewrite negb_true_iff in H1, H2.
  - apply IH. now apply andb_prop in H as [_ H].
Qed.

Lemma CreateDataProperty_new (p q : list (jsstring * value)) (k : jsstring)
      (v : value) :
  own_keys_ordered (map fst (p ++ (k, v) :: q)) = true ->
  CreateDataProperty p (k, v) = p ++ [(k, v)].
Proof.
  intros H. rewrite map_app in H. simpl in H.
  apply own_keys_ordered_middle in H.
  unfold CreateDataProperty. simpl.
  rewrite has_key_absent, insert_new_last; [reflexivity | |];
    (eapply Forall_impl; [|exact H]); simpl; intros a [H1 H2]; assumption.
Qed.

Lemma fold_CreateDataProperty (q p : list (jsstring * value)) :
  own_keys_ordered (map fst (p ++ q)) = true ->
  fold_left CreateDataProperty q p = p ++ q.
Proof.
  revert p. induction q as [|[k v] q IH]; intros p H; simpl.
  - now rewrite app_nil_r.
  - rewrite (CreateDataProperty_new p q k v H), IH.
    + now rewrite <- app_assoc.
    + now rewrite <- app_assoc.
Qed.

(** ** Round trip of arrays and objects, one level *)

Lemma starts_value_append (t x : jsstring) :
  starts_value t = true -> starts_value (t ++ x) = true.
Proof.
  destruct t; simpl; [discriminate | trivial].
Qed.

Lemma starts_value_inv (t : jsstring) :
  starts_value t = true -> exists c t', t = c :: t' /\ value_start c = true.
Proof.
  destruct t as [|c t']; simpl; [discriminate|]. intros H. now exists c, t'.
Qed.

Lemma map_unsome (ts : list jsstring) :
  map (fun o : option jsstring => match o with Some s => s | None => js "null" end)
      (map Some ts) = ts.
Proof.
  induction ts as [|t ts IH]; simpl; [reflexivity | now rewrite IH].
Qed.

Lemma somes_member_text (ms : list (jsstring * jsstring)) :
  somes (map member_text (map member_of ms)) = map member_string ms.
Proof.
  induction ms as [|[k t] ms IH]; [reflexivity|].
  cbn [map somes member_text member_of fst snd]. now rewrite IH.
Qed.

Lemma delimited_comma (t : jsstring) : delimited (44%N :: t) = true.
Proof. reflexivity. Qed.

Lemma delimited_bracket (t : jsstring) : delimited (93%N :: t) = true.
Proof. reflexivity. Qed.

Lemma delimited_brace (t : jsstring) : delimited (125%N :: t) = true.
Proof. reflexivity. Qed.

Lemma elements_round_trip (elems : list value) :
  Forall round_trips elems ->
  forallb representable elems = true ->
  exists ts,
    sequence (map SerializeJSONProperty elems) = Ok (map Some ts)
    /\ length ts = length elems
    /\ (elems <> [] -> starts_value (join ts) = true)
    /\ (elems <> [] -> forall fuel rest,
          (length (join ts) + 1 < fuel)%nat ->
          parse_elements fuel (join ts ++ 93%N :: rest)
          = Some (elems, rest)).
Proof.
  induction 1 as [|v elems Hv _ IH]; intros Hrep.
  - exists []. repeat split; congruence.
  - simpl in Hrep. apply andb_prop in Hrep as [Hrv Hrl].
    destruct (Hv Hrv) as (t & Hser & Hstart & Hparse).
    destruct (IH Hrl) as (ts & Hseq & Hlen & Hstarts & Hparses).
    exists (t :: ts). split; [|split; [|split]].
    + simpl. now rewrite Hser, Hseq.
    + simpl. now rewrite Hlen.
    + intros _. simpl. destruct ts; [exact Hstart|].
      now apply starts_value_append.
    + intros _ [|fuel] rest Hfuel; [lia|].
      destruct elems as [|v' elems].
      * destruct ts; [|discriminate Hlen]. cbn [join] in *.
        apply parse_elements_last, Hparse; [lia | reflexivity].
      * destruct ts as [|t' ts]; [discriminate Hlen|].
        change (join (t :: t' :: ts)) with (t ++ js "," ++ join (t' :: ts)) in *.
        set (joined := join (t' :: ts)) in *.
        rewrite !length_app in Hfuel. cbn [length js map list_ascii_of_string] in Hfuel.
        rewrite <- !app_assoc.
        change (js "," ++ joined ++ 93%N :: rest)
          with (44%N :: (joined ++ 93%N :: rest)).
        rewrite (parse_elements_comma fuel _ (joined ++ 93%N :: rest) v).
        -- rewrite Hparses; [reflexivity | discriminate | lia].
        -- apply Hparse; [lia | reflexivity].
Qed.

Lemma members_round_trip (props : list (jsstring * value)) :
  Forall (fun kv => round_trips (snd kv)) props ->
  forallb (fun kv => representable (snd kv)) props = true ->
  exists ms,
    sequence (map (fun kv => result_bind (SerializeJSONProperty (snd kv))
                               (fun o => Ok (fst kv, o))) props)
    = Ok (map member_of ms)
    /\ length ms = length props
    /\ (props <> [] -> exists t,
          join (map member_string ms) = 34%N :: t)
    /\ (props <> [] -> forall fuel rest,
          (length (join (map member_string ms)) + 1 < fuel)%nat ->
          parse_members fuel
            (join (map member_string ms) ++ 125%N :: rest)
          = Some (props, rest)).
Proof.
  induction 1 as [|[k v] props Hv _ IH]; intros Hrep.
  - exists []. repeat split; congruence.
  - simpl in Hrep, Hv. apply andb_prop in Hrep as [Hrv Hrl].
    destruct (Hv Hrv) as (t & Hser & Hstart & Hparse).
    destruct (IH Hrl) as (ms & Hseq & Hlen & Hstarts & Hparses).
    exists ((k, t) :: ms). split; [|split; [|split]].
    + simpl. now rewrite Hser, Hseq.
    + simpl. now rewrite Hlen.
    + intros _. cbn [map join]. destruct (map member_string ms);
        eexists; unfold member_string, QuoteJSONString; cbn [fst snd app];
        reflexivity.
    + intros _ [|fuel] rest Hfuel; [lia|].
      destruct props as [|kv' props].
      * destruct ms; [|discriminate Hlen].
        cbn [map join] in *.
        unfold member_string in *. cbn [fst snd] in *.
        rewrite !length_app in Hfuel.
        rewrite <- !app_assoc.
        apply parse_members_last, Hparse; [lia | reflexivity].
      * destruct ms as [|m' ms]; [discriminate Hlen|].
        change (join (map member_string ((k, t) :: m' :: ms)))
          with (member_string (k, t) ++ js ","
                ++ join (map member_string (m' :: ms))) in *.
        set (joined := join (map member_string (m' :: ms))) in *.
        unfold member_string in Hfuel |- *.
        cbn [fst snd] in *.
        rewrite !length_app in Hfuel. cbn [length js map list_ascii_of_string] in Hfuel.
        rewrite <- !app_assoc.
        change (js "," ++ joined ++ 125%N :: rest)
          with (44%N :: (joined ++ 125%N :: rest)).
        rewrite (parse_members_comma fuel k _ (joined ++ 125%N :: rest) v).
        -- rewrite Hparses; [reflexivity | discriminate | lia].
        -- apply Hparse; [lia | reflexivity].
Qed.

(** ** Round trip of every representable value *)

Lemma parse_value_round_trip (v : value) : round_trips v.
Proof.
  induction v as [| |b|x|n|s|elems IH|props IH] using value_nested_ind;
    unfold round_trips; intros Hrep; try discriminate Hrep.
  - exists (js "null"). repeat split.
    intros [|fuel] rest Hfuel _; [simpl in Hfuel; lia | reflexivity].
  - destruct b; eexists; (split; [reflexivity|]); (split; [reflexivity|]);
      (intros [|fuel] rest Hfuel _; [simpl in Hfuel; lia | reflexivity]).
  - simpl in Hrep.
    destruct (NumberToString_start x Hrep) as (c & t & Ht & Hc).
    exists (NumberToString x). split; [|split].
    + destruct x as [|s|[|]|s m e]; try discriminate Hrep; reflexivity.
    + rewrite Ht. simpl. unfold value_start. now rewrite Hc.
    + intros [|fuel] rest Hfuel Hrest; [lia|].
      assert (E : NumberToString x ++ rest = c :: (t ++ rest))
        by (now rewrite Ht).
      rewrite E, parse_value_number, <- E by assumption.
      now rewrite parse_number_NumberToString.
  - exists (QuoteJSONString s). split; [reflexivity|]. split; [reflexivity|].
    intros [|fuel] rest Hfuel _; [lia|].
    unfold QuoteJSONString. rewrite <- !app_assoc. cbn [app].
    now rewrite parse_value_string, parse_chars_quote_units.
  - simpl in Hrep.
    destruct (elements_round_trip elems IH Hrep)
      as (ts & Hseq & Hlen & Hstarts & Hparses).
    exists (js "[" ++ join ts ++ js "]"). split; [|split].
    + cbn [SerializeJSONProperty]. unfold SerializeJSONArray. rewrite Hseq.
      cbn [result_bind]. now rewrite map_unsome.
    + reflexivity.
    + intros [|fuel] rest Hfuel _; [lia|].
      destruct elems as [|v elems].
      * destruct ts; [reflexivity | discriminate Hlen].
      * assert (Hne : v :: elems <> []) by discriminate.
        specialize (Hstarts Hne). specialize (Hparses Hne).
        set (joined := join ts) in *.
        rewrite !length_app in Hfuel. cbn [length js map list_ascii_of_string] in Hfuel.
        rewrite <- !app_assoc.
        change (js "[" ++ joined ++ js "]" ++ rest)
          with (91%N :: (joined ++ 93%N :: rest)).
        destruct (starts_value_inv joined Hstarts) as (c & t & Hj & Hc).
        assert (E : joined ++ 93%N :: rest = c :: (t ++ 93%N :: rest))
          by (now rewrite Hj).
        rewrite E, parse_value_array, <- E by assumption.
        rewrite Hparses by lia. reflexivity.
  - simpl in Hrep. apply andb_prop in Hrep as [Hkeys Hrep].
    destruct (members_round_trip props IH Hrep)
      as (ms & Hseq & Hlen & Hstarts & Hparses).
    exists (js "{" ++ join (map member_string ms) ++ js "}").
    split; [|split].
    + cbn [SerializeJSONProperty]. unfold SerializeJSONObject. rewrite Hseq.
      cbn [result_bind]. now rewrite somes_member_text.
    + reflexivity.
    + intros [|fuel] rest Hfuel _; [lia|].
      destruct props as [|kv props].
      * destruct ms; [reflexivity | discriminate Hlen].
      * assert (Hne : kv :: props <> []) by discriminate.
        specialize (Hstarts Hne). specialize (Hparses Hne).
        set (joined := join (map member_string ms)) in *.
        rewrite !length_app in Hfuel. cbn [length js map list_ascii_of_string] in Hfuel.
        rewrite <- !app_assoc.
        change (js "{" ++ joined ++ js "}" ++ rest)
          with (123%N :: (joined ++ 125%N :: rest)).
        destruct Hstarts as (t & Hj).
        assert (E : joined ++ 125%N :: rest
                    = 34%N :: (t ++ 125%N :: rest))
          by (now rewrite Hj).
        rewrite E, parse_value_object, <- E.
        rewrite Hparses by lia. unfold pack.
        now rewrite (fold_CreateDataProperty (kv :: props) []).
Qed.

Lemma JSON_parse_stringify (v : value) :
  representable v = true ->
  exists text,
    JSON_stringify v = Ok (Some text) /\ JSON_parse text = Some v.
Proof.
  intros Hrep.
  destruct (parse_value_round_trip v Hrep) as (t & Hser & _ & Hparse).
  exists t. split; [exact Hser|].
  unfold JSON_parse.
  rewrite <- (app_nil_r t) at 2.
  rewrite Hparse; [reflexivity | lia | reflexivity].
Qed.

(** ** What [sequence] returns *)

Lemma sequence_map_ok {A B} (f : A -> result B) (l : list A) (ps : list B) :
  sequence (map f l) = Ok ps -> Forall2 (fun a p => f a = Ok p) l ps.
Proof.
  revert ps. induction l as [|a l IH]; simpl; intros ps H.
  - injection H as <-. constructor.
  - destruct (f a) as [p|x] eqn:Hf; simpl in H; [|discriminate H].
    destruct (sequence (map f l)) as [ps'|x]; simpl in H; [|discriminate H].
    injection H as <-. constructor; [exact Hf | now apply IH].
Qed.

Lemma stringify_array_text (elems : list value) (payload : jsstring) :
  JSON_stringify_array elems = Ok payload ->
  SerializeJSONProperty (VArray elems) = Ok (Some payload).
Proof.
  intros H. cbn [SerializeJSONProperty].
  fold (JSON_stringify_array elems). now rewrite H.
Qed.

(** ** Texts without control characters *)

Lemma no_control_app (a b : jsstring) :
  no_control (a ++ b) = no_control a && no_control b.
Proof. apply forallb_app. Qed.

Lemma no_control_cons (c : N) (t : jsstring) :
  no_control (c :: t) = (32 <=? c)%N && no_control t.
Proof. reflexivity. Qed.

Lemma no_control_digits_text (ds : list N) : no_control (digits_text ds) = true.
Proof.
  induction ds as [|d ds IH]; [reflexivity|].
  cbn [digits_text map no_control forallb]. fold (digits_text ds).
  fold (no_control (digits_text ds)). rewrite IH, andb_true_r.
  apply N.leb_le. lia.
Qed.

Lemma no_control_zeros (j : nat) : no_control (repeat 48%N j) = true.
Proof.
  induction j as [|j IH]; [reflexivity | exact IH].
Qed.

Lemma no_control_format_decimal (D : list N) (n : Z) :
  no_control (format_decimal D n) = true.
Proof.
  unfold format_decimal.
  destruct ((Z.of_nat (length D) <=? n) && (n <=? 21)).
  - now rewrite no_control_app, no_control_digits_text, no_control_zeros.
  - destruct ((0 <? n) && (n <=? 21)).
    + now rewrite !no_control_app, !no_control_digits_text.
    + destruct ((-6 <? n) && (n <=? 0)).
      * now rewrite !no_control_app, no_control_digits_text, no_control_zeros.
      * destruct D as [|d [|d' D]];
          rewrite !no_control_app, ?no_control_digits_text;
          destruct (n - 1 <? 0); reflexivity.
Qed.

Lemma no_control_NumberToString (x : number) :
  no_control (NumberToString x) = true.
Proof.
  destruct x as [|[|]|s|s m e]; try reflexivity.
  unfold NumberToString. destruct (shortest_decimal m e) as [D n].
  rewrite no_control_app, no_control_format_decimal.
  now destruct s.
Qed.

Lemma hex_digit_printable (n : N) : (32 <=? hex_digit n)%N = true.
Proof.
  unfold hex_digit. apply N.leb_le. destruct (n <? 10)%N; lia.
Qed.

Lemma no_control_UnicodeEscape (c : N) : no_control (UnicodeEscape c) = true.
Proof.
  unfold UnicodeEscape. rewrite no_control_app.
  cbn [no_control forallb]. now rewrite !hex_digit_printable.
Qed.

Lemma no_control_quote_unit (c : N) : no_control (quote_unit c) = true.
Proof.
  unfold quote_unit.
  repeat (match goal with
          | |- context [if ?b then _ else _] => destruct b eqn:?
          end; try reflexivity).
  - apply no_control_UnicodeEscape.
  - cbn [no_control forallb]. rewrite andb_true_r.
    apply N.leb_le. match goal with H : (c <? 32)%N = false |- _ =>
      apply N.ltb_ge in H; exact H end.
Qed.

Lemma no_control_quote_units_bounded (n : nat) (s : jsstring) :
  (length s <= n)%nat -> no_control (quote_units s) = true.
Proof.
  revert s. induction n as [|n IH]; intros s Hlen.
  - destruct s; [reflexivity | simpl in Hlen; lia].
  - destruct s as [|c s]; [reflexivity|].
    simpl in Hlen. cbn [quote_units].
    destruct (is_leading_surrogate c) eqn:Hlead.
    + destruct (surrogate_bounds c (or_introl Hlead)) as (_ & _ & _ & H32).
      destruct s as [|d s]; [apply no_control_UnicodeEscape|].
      destruct (is_trailing_surrogate d) eqn:Htrail.
      * destruct (surrogate_bounds d (or_intror Htrail)) as (_ & _ & _ & D32).
        cbn [no_control forallb]. fold (no_control (quote_units s)).
        rewrite IH by (simpl in Hlen; lia).
        apply N.leb_le in H32, D32. now rewrite H32, D32.
      * rewrite no_control_app, no_control_UnicodeEscape. apply IH. lia.
    + destruct (is_trailing_surrogate c).
      * rewrite no_control_app, no_control_UnicodeEscape. apply IH. lia.
      * rewrite no_control_app, no_control_quote_unit. apply IH. lia.
Qed.

Lemma no_control_QuoteJSONString (s : jsstring) :
  no_control (QuoteJSONString s) = true.
Proof.
  unfold QuoteJSONString. rewrite !no_control_app.
  now rewrite (no_control_quote_units_bounded (length s) s).
Qed.

Lemma no_control_join (parts : list jsstring) :
  Forall (fun t => no_control t = true) parts ->
  no_control (join parts) = true.
Proof.
  induction 1 as [|t parts Ht Hparts IH]; [reflexivity|].
  cbn [join]. destruct parts as [|t' parts]; [exact Ht|].
  now rewrite !no_control_app, Ht, IH.
Qed.

Lemma no_control_serialized (v : value) (t : jsstring) :
  SerializeJSONProperty v = Ok (Some t) -> no_control t = true.
Proof.
  revert t.
  induction v as [| |b|x|n|s|elems IH|props IH] using value_nested_ind;
    intros t H; cbn [SerializeJSONProperty] in H; try discriminate H.
  - now injection H as <-.
  - destruct b; now injection H as <-.
  - destruct x as [|s|s|s m e]; injection H as H; subst t;
      [reflexivity | reflexivity | reflexivity|].
    apply (no_control_NumberToString (Finite s m e)).
  - injection H as <-. apply no_control_QuoteJSONString.
  - unfold SerializeJSONArray in H.
    destruct (sequence (map SerializeJSONProperty elems)) as [ps|x] eqn:Hseq;
      cbn [result_bind] in H; [|discriminate H].
    injection H as <-. apply sequence_map_ok in Hseq.
    rewrite no_control_cons, no_control_app, no_control_join; [reflexivity|].
    clear -IH Hseq.
    induction Hseq as [|v o elems ps Hv _ IHseq]; simpl; [constructor|].
    inversion IH as [|? ? Pv Pl]; subst.
    constructor; [|now apply IHseq].
    destruct o as [t|]; [now apply Pv | reflexivity].
  - unfold SerializeJSONObject in H.
    destruct (sequence _) as [ms|x] eqn:Hseq; cbn [result_bind] in H;
      [|discriminate H].
    injection H as <-. apply sequence_map_ok in Hseq.
    rewrite no_control_cons, no_control_app, no_control_join; [reflexivity|].
    clear -IH Hseq.
    induction Hseq as [|[k v] [k' o] props ms Hv _ IHseq]; simpl; [constructor|].
    inversion IH as [|? ? Pv Pl]; subst. simpl in Hv, Pv.
    destruct (SerializeJSONProperty v) as [o'|x] eqn:Hser; simpl in Hv;
      [|discriminate Hv].
    injection Hv as <- <-.
    unfold member_text at 1. cbn [fst snd].
    destruct o' as [t|]; [|now apply IHseq].
    constructor; [|now apply IHseq].
    rewrite !no_control_app, no_control_QuoteJSONString.
    now rewrite (Pv t eq_refl).
Qed.

(** ** BigInt is what [JSON.stringify] refuses *)

Lemma serialize_bigint (v : value) :
  if bigint_free v
  then exists o, SerializeJSONProperty v = Ok o
  else SerializeJSONProperty v = Err bigint_error.
Proof.
  induction v as [| |b|x|n|s|elems IH|props IH] using value_nested_ind;
    cbn [bigint_free SerializeJSONProperty];
    try (eexists; reflexivity); try reflexivity.
  - destruct b; eexists; reflexivity.
  - destruct x; eexists; reflexivity.
  - assert (H : if forallb bigint_free elems
                then exists ps, sequence (map SerializeJSONProperty elems) = Ok ps
                else sequence (map SerializeJSONProperty elems) = Err bigint_error).
    { induction IH as [|v elems Hv _ IHl]; simpl; [now exists []|].
      destruct (bigint_free v); simpl.
      - destruct Hv as [o ->]. simpl.
        destruct (forallb bigint_free elems).
        + destruct IHl as [ps ->]. eexists; reflexivity.
        + now rewrite IHl.
      - now rewrite Hv. }
    unfold SerializeJSONArray.
    destruct (forallb bigint_free elems).
    + destruct H as [ps ->]. eexists; reflexivity.
    + now rewrite H.
  - set (f := fun kv : jsstring * value =>
                result_bind (SerializeJSONProperty (snd kv))
                            (fun o => Ok (fst kv, o))).
    assert (H : if forallb (fun kv => bigint_free (snd kv)) props
                then exists ms, sequence (map f props) = Ok ms
                else sequence (map f props) = Err bigint_error).
    { induction IH as [|[k v] props Hv _ IHl]; simpl; [now exists []|].
      simpl in Hv. unfold f at 1 3. simpl.
      destruct (bigint_free v); simpl.
      - destruct Hv as [o ->]. simpl.
        destruct (forallb (fun kv => bigint_free (snd kv)) props).
        + destruct IHl as [ms ->]. eexists; reflexivity.
        + now rewrite IHl.
      - now rewrite Hv. }
    unfold SerializeJSONObject.
    destruct (forallb (fun kv => bigint_free (snd kv)) props).
    + destruct H as [ms ->]. eexists; reflexivity.
    + now rewrite H.
Qed.

Lemma stringify_frame_bigint (event : jsstring) (data : value) :
  if bigint_free data
  then exists payload, JSON_stringify_array [VString event; data] = Ok payload
  else JSON_stringify_array [VString event; data] = Err bigint_error.
Proof.
  pose proof (serialize_bigint data) as H.
  unfold JSON_stringify_array, SerializeJSONArray.
  cbn [map sequence SerializeJSONProperty result_bind].
  destruct (bigint_free data).
  - destruct H as [o ->]. eexists; reflexivity.
  - now rewrite H.
Qed.

#[local] Close Scope Z_scope.
#[local] Open Scope string_scope.

(** ** Strings *)

Lemma append_assoc (a b c : string) : (a ++ b) ++ c = a ++ (b ++ c).
Proof.
  induction a as [|x a IH]; simpl; [reflexivity | now rewrite IH].
Qed.

Lemma append_empty_r (a : string) : a ++ "" = a.
Proof.
  induction a as [|x a IH]; simpl; [reflexivity | now rewrite IH].
Qed.

Lemma length_append (a b : string) :
  String.length (a ++ b) = String.length a + String.length b.
Proof.
  induction a as [|x a IH]; simpl; [reflexivity | now rewrite IH].
Qed.

Lemma append_inv_head (a b c : string) : a ++ b = a ++ c -> b = c.
Proof.
  induction a as [|x a IH]; simpl; intros H; [exact H|].
  injection H as H. now apply IH.
Qed.

(** * The relay *)

Section RelayFacts.

Context {Store : Type} {client : Redis Store}.

Implicit Types (this : IO Store) (room : string) (event : jsstring) (data : value).

(** ** What one call does *)

Lemma emit_untargeted this event data :
  targetRoom this = None \/ targetRoom this = Some "" ->
  emit event data this
  = Run (Ok tt) (mkIO None (redis this) (prefix this)) [LogWarn no_target_warning].
Proof.
  destruct this as [t st p]; simpl. intros [-> | ->]; reflexivity.
Qed.

Lemma emit_targeted this c room event data :
  targetRoom this = Some (String c room) ->
  emit event data this
  = match JSON_stringify_array [VString event; data] with
    | Err x =>
        Run (Err x) (mkIO None (redis this) (prefix this))
            [LogError "Failed to emit event" x]
    | Ok payload =>
        let channel := formatRoomName this (String c room) in
        match publish (redis this) channel payload with
        | (Ok _, store) =>
            Run (Ok tt) (mkIO None store (prefix this))
                [RedisPublish channel payload;
                 LogSuccess (emitted_message (String c room))
                            (VArray [VString event; data])]
        | (Err x, store) =>
            Run (Err x) (mkIO None store (prefix this))
                [RedisPublish channel payload;
                 LogError "Failed to emit event" x]
        end
    end.
Proof.
  destruct this as [t st p]; simpl. intros ->.
  unfold emit, try_finally, try_catch, bind, get_targetRoom, get_this, lift,
    redis_publish, formatRoomName.
  simpl targetRoom. cbv beta iota.
  generalize (JSON_stringify_array [VString event; data]).
  intros [payload|x]; simpl; [|reflexivity].
  destruct (publish st (p ++ String ":" (String c room)) payload) as [[n|x] st'];
    reflexivity.
Qed.

Lemma to_run this room :
  to room this
  = Run (Ok tt) (mkIO (Some room) (redis this) (prefix this))
        (match room with
         | EmptyString => [LogWarn "Empty room name provided to IO.to()"]
         | String _ _ => []
         end).
Proof.
  destruct room; reflexivity.
Qed.

Lemma getClientsInRoom_run this room :
  getClientsInRoom room this
  = let key := formatRoomName this room ++ ":clients" in
    match smembers (redis this) key with
    | (Ok members, store) =>
        Run (Ok members) (mkIO (targetRoom this) store (prefix this))
            [RedisSMembers key]
    | (Err x, store) =>
        Run (Ok []) (mkIO (targetRoom this) store (prefix this))
            [RedisSMembers key; LogError (clients_failure_message room) x]
    end.
Proof.
  unfold getClientsInRoom, try_catch, bind, get_this, redis_smembers. simpl.
  destruct (smembers (redis this) (formatRoomName this room ++ ":clients"))
    as [[members|x] st']; reflexivity.
Qed.

Lemma emit_final_target this event data :
  targetRoom (final (emit event data this)) = None.
Proof.
  destruct (targetRoom this) as [[|c room]|] eqn:Ht.
  - rewrite emit_untargeted by auto. reflexivity.
  - rewrite (emit_targeted this c room) by assumption.
    destruct (JSON_stringify_array [VString event; data]); [|reflexivity].
    cbv zeta. destruct (publish _ _ _) as [[n|x] st']; reflexivity.
  - rewrite emit_untargeted by auto. reflexivity.
Qed.

Lemma emit_final_prefix this event data :
  prefix (final (emit event data this)) = prefix this.
Proof.
  destruct (targetRoom this) as [[|c room]|] eqn:Ht.
  - rewrite emit_untargeted by auto. reflexivity.
  - rewrite (emit_targeted this c room) by assumption.
    destruct (JSON_stringify_array [VString event; data]); [|reflexivity].
    cbv zeta. destruct (publish _ _ _) as [[n|x] st']; reflexivity.
  - rewrite emit_untargeted by auto. reflexivity.
Qed.

Lemma emit_published this event data :
  published (effects (emit event data this))
  = match targetRoom this with
    | None | Some EmptyString => []
    | Some room =>
        match JSON_stringify_array [VString event; data] with
        | Ok payload => [(formatRoomName this room, payload)]
        | Err _ => []
        end
    end.
Proof.
  destruct (targetRoom this) as [[|c room]|] eqn:Ht.
  - rewrite emit_untargeted by auto. reflexivity.
  - rewrite (emit_targeted this c room) by assumption.
    destruct (JSON_stringify_array [VString event; data]); [|reflexivity].
    cbv zeta. destruct (publish _ _ _) as [[n|x] st']; reflexivity.
  - rewrite emit_untargeted by auto. reflexivity.
Qed.

Lemma published_app (l1 l2 : list effect) :
  published (l1 ++ l2)%list = (published l1 ++ published l2)%list.
Proof.
  induction l1 as [|x l1 IH]; [reflexivity|].
  destruct x; simpl; rewrite ?IH; reflexivity.
Qed.

Lemma seq_published {A B} (m : M Store A) (k : M Store B) this (a : A) this1 l1 :
  m this = Run (Ok a) this1 l1 ->
  published (effects ((m ;; k) this))
  = (published l1 ++ published (effects (k this1)))%list.
Proof.
  intros H. unfold bind. rewrite H.
  destruct (k this1) as [o f l]. simpl. apply published_app.
Qed.

Lemma to_published this room : published (effects (to room this)) = [].
Proof.
  rewrite to_run. destruct room; reflexivity.
Qed.

Lemma getClientsInRoom_returns this room :
  exists members st l,
    getClientsInRoom room this
    = Run (Ok members) (mkIO (targetRoom this) st (prefix this)) l
    /\ published l = [].
Proof.
  rewrite getClientsInRoom_run. cbv zeta.
  destruct (smembers _ _) as [[members|x] st']; repeat eexists.
Qed.

Lemma formatRoomName_inj this room room' :
  formatRoomName this room = formatRoomName this room' -> room = room'.
Proof.
  unfold formatRoomName. intros H.
  apply append_inv_head in H. now injection H.
Qed.

End RelayFacts.

(** * The claims *)

Section Claims.

Context {Store : Type} {client : Redis Store}.

Implicit Types (this : IO Store) (room : string) (event : jsstring) (data : value).

(** C1.  After any call to [emit], whether it completes normally or throws,
    the target room is [null]; a second [emit] right after it publishes
    nothing, only warns, and leaves the instance as it found it. *)
Theorem emit_resets_target this event data event' data' :
  let after := final (emit event data this) in
  targetRoom after = None
  /\ emit event' data' after = Run (Ok tt) after [LogWarn no_target_warning]
  /\ published (effects (emit event' data' after)) = [].
Proof.
  intros after.
  assert (H : targetRoom after = None) by apply emit_final_target.
  split; [exact H|].
  rewrite emit_untargeted by auto.
  destruct after as [t st p]; simpl in H; subst t. split; reflexivity.
Qed.

(** C2.  The channel [emit] publishes on after [to(room)] is the prefix, a
    colon and the room; the key [getClientsInRoom(room)] queries is that
    text followed by ":clients".  Both depend on the prefix and the room
    only: any instance with the same prefix derives the same name. *)
Theorem derived_keys this room event data (t : option string) (st : Store) :
  formatRoomName this room = prefix this ++ ":" ++ room
  /\ formatRoomName (mkIO t st (prefix this)) room = formatRoomName this room
  /\ published (effects (emit event data (final (to room this))))
     = match room, JSON_stringify_array [VString event; data] with
       | String _ _, Ok payload => [(prefix this ++ ":" ++ room, payload)]
       | _, _ => []
       end
  /\ queried (effects (getClientsInRoom room this))
     = [prefix this ++ ":" ++ room ++ ":clients"].
Proof.
  split; [reflexivity|]. split; [reflexivity|]. split.
  - rewrite emit_published, to_run. simpl.
    destruct room; [reflexivity|].
    destruct (JSON_stringify_array [VString event; data]); reflexivity.
  - rewrite getClientsInRoom_run. cbv zeta.
    destruct (smembers _ _) as [[members|x] st']; simpl; unfold formatRoomName;
      now rewrite !append_assoc.
Qed.

(** C3.  [emit] on an instance without target room warns, publishes
    nothing, returns normally and leaves the instance untargeted. *)
Theorem emit_without_target this event data :
  targetRoom this = None ->
  emit event data this = Run (Ok tt) this [LogWarn no_target_warning]
  /\ published (effects (emit event data this)) = []
  /\ targetRoom (final (emit event data this)) = None.
Proof.
  intros H. rewrite emit_untargeted by auto.
  destruct this as [t st p]; simpl in H; subst t. repeat split.
Qed.

(** C4.  When the store refuses the message of a targeted [emit], the call
    logs the failure, throws that same exception, and the target room is
    cleared all the same. *)
Theorem emit_publish_failure this room event data payload x st :
  targetRoom this = Some room -> room <> "" ->
  JSON_stringify_array [VString event; data] = Ok payload ->
  publish (redis this) (formatRoomName this room) payload = (Err x, st) ->
  outcome (emit event data this) = Err x
  /\ effects (emit event data this)
     = [RedisPublish (formatRoomName this room) payload;
        LogError "Failed to emit event" x]
  /\ targetRoom (final (emit event data this)) = None.
Proof.
  intros Ht Hroom Hjs Hpub.
  destruct room as [|c room]; [congruence|].
  rewrite (emit_targeted this c room) by assumption.
  rewrite Hjs. cbv zeta. rewrite Hpub. repeat split.
Qed.

(** C5, as the code has it.  [to("")] warns and stores the empty string as
    target; the [emit] that follows takes the empty target for a missing
    one: it warns, publishes nothing, returns normally and clears the
    target. *)
Theorem to_empty_then_emit this event data :
  let targeted := final (to "" this) in
  effects (to "" this) = [LogWarn "Empty room name provided to IO.to()"]
  /\ targetRoom targeted = Some ""
  /\ outcome (emit event data targeted) = Ok tt
  /\ effects (emit event data targeted) = [LogWarn no_target_warning]
  /\ published (effects (emit event data targeted)) = []
  /\ targetRoom (final (emit event data targeted)) = None.
Proof.
  intros targeted. subst targeted. rewrite to_run. cbn [final effects].
  rewrite emit_untargeted by (right; reflexivity). repeat split.
Qed.

(** C6, as the code has it.  After [to(r1)] and [to(r2)] with [r2] not
    empty, an [emit] whose frame serializes publishes exactly once, on the
    channel of [r2]; it publishes on the channel of [r1] only if the two
    rooms are the same. *)
Theorem last_to_wins this r1 r2 event data payload :
  r2 <> "" ->
  JSON_stringify_array [VString event; data] = Ok payload ->
  targetRoom (final ((to r1 ;; to r2) this)) = Some r2
  /\ published (effects ((to r1 ;; to r2 ;; emit event data) this))
     = [(formatRoomName this r2, payload)]
  /\ (r1 <> r2 ->
      ~ In (formatRoomName this r1)
           (map fst (published (effects ((to r1 ;; to r2 ;; emit event data) this))))).
Proof.
  intros Hr2 Hjs.
  assert (Hpub : published (effects ((to r1 ;; to r2 ;; emit event data) this))
                 = [(formatRoomName this r2, payload)]).
  { destruct r2 as [|c r2]; [congruence|].
    unfold bind. rewrite !to_run.
    rewrite (emit_targeted _ c r2) by reflexivity.
    rewrite Hjs. cbv zeta. simpl redis.
    destruct (publish _ _ _) as [[n|x] st']; destruct r1; reflexivity. }
  split; [|split].
  - unfold bind. rewrite !to_run. reflexivity.
  - exact Hpub.
  - intros Hne. rewrite Hpub. simpl. intros [H|[]].
    apply formatRoomName_inj in H. congruence.
Qed.

(** C7.  [getClientsInRoom(room)] never throws.  It asks the store for the
    members of the key of the room; it returns what the store answers, and
    when the store fails it logs the failure and returns the empty list. *)
Theorem getClientsInRoom_never_raises this room :
  let key := prefix this ++ ":" ++ room ++ ":clients" in
  match fst (smembers (redis this) key) with
  | Ok members =>
      outcome (getClientsInRoom room this) = Ok members
      /\ effects (getClientsInRoom room this) = [RedisSMembers key]
  | Err x =>
      outcome (getClientsInRoom room this) = Ok []
      /\ effects (getClientsInRoom room this)
         = [RedisSMembers key; LogError (clients_failure_message room) x]
  end.
Proof.
  intros key. rewrite getClientsInRoom_run. cbv zeta.
  assert (E : formatRoomName this room ++ ":clients" = key)
    by (unfold formatRoomName, key; now rewrite !append_assoc).
  rewrite E.
  destruct (smembers (redis this) key) as [[members|x] st']; split; reflexivity.
Qed.

(** C8.  The message a targeted [emit(event, data)] publishes is the text
    [JSON.stringify] gives for the array of [event] and [data]; for a
    JSON-representable [data], [JSON.parse] of that text is the array of the
    same event name and the same data. *)
Theorem emit_wire_format this room event data :
  targetRoom this = Some room -> room <> "" ->
  representable data = true ->
  exists payload,
    JSON_stringify (VArray [VString event; data]) = Ok (Some payload)
    /\ published (effects (emit event data this))
       = [(formatRoomName this room, payload)]
    /\ JSON_parse payload = Some (VArray [VString event; data]).
Proof.
  intros Ht Hroom Hrep.
  assert (Hframe : representable (VArray [VString event; data]) = true)
    by (simpl; now rewrite Hrep).
  destruct (JSON_parse_stringify _ Hframe) as (text & Hser & Hparse).
  exists text. split; [exact Hser|]. split; [|exact Hparse].
  rewrite emit_published, Ht.
  destruct room as [|c room]; [congruence|].
  change (JSON_stringify (VArray [VString event; data]))
    with (result_bind (JSON_stringify_array [VString event; data])
            (fun s => Ok (Some s))) in Hser.
  destruct (JSON_stringify_array [VString event; data]) as [payload|x];
    simpl in Hser; [|discriminate Hser].
  now injection Hser as ->.
Qed.

(** C9.  [getClientsInRoom] leaves the target room as it is, whatever the
    state of the instance and the room asked about; an [emit] that follows
    [to(room)] and a query publishes what it would without the query: on
    the channel of [room]. *)
Theorem getClientsInRoom_keeps_target this room asked event data :
  targetRoom (final (getClientsInRoom asked this)) = targetRoom this
  /\ prefix (final (getClientsInRoom asked this)) = prefix this
  /\ published (effects ((to room ;; getClientsInRoom asked ;; emit event data) this))
     = published (effects ((to room ;; emit event data) this))
  /\ published (effects ((to room ;; getClientsInRoom asked ;; emit event data) this))
     = match room, JSON_stringify_array [VString event; data] with
       | String _ _, Ok payload => [(formatRoomName this room, payload)]
       | _, _ => []
       end.
Proof.
  destruct (getClientsInRoom_returns this asked) as (ms & st & l & Hrun & _).
  split; [now rewrite Hrun|]. split; [now rewrite Hrun|].
  pose proof (to_run this room) as Hto.
  set (targeted := mkIO (Some room) (redis this) (prefix this)) in *.
  destruct (getClientsInRoom_returns targeted asked)
    as (ms' & st' & l' & Hrun' & Hl').
  assert (Hseq : published (effects ((to room ;; getClientsInRoom asked ;;
                                      emit event data) this))
                 = match room, JSON_stringify_array [VString event; data] with
                   | String _ _, Ok payload => [(formatRoomName this room, payload)]
                   | _, _ => []
                   end).
  { rewrite (seq_published _ _ _ _ _ _ Hto).
    rewrite (seq_published _ _ _ _ _ _ Hrun'), Hl', emit_published.
    destruct room; [reflexivity|].
    destruct (JSON_stringify_array [VString event; data]); reflexivity. }
  split; [|exact Hseq].
  rewrite Hseq, (seq_published _ _ _ _ _ _ Hto), emit_published.
  destruct room; [reflexivity|].
  destruct (JSON_stringify_array [VString event; data]); reflexivity.
Qed.

(** C10.  A constructor given the empty string as prefix, like one given
    no prefix, builds an instance with the default prefix "io"; no method
    assigns the prefix, so no instance ever has an empty one. *)
Theorem prefix_never_empty this redisUrl redisToken :
  reachable this ->
  prefix (IO_new redisUrl redisToken (Some "")) = "io"
  /\ prefix (IO_new redisUrl redisToken None) = "io"
  /\ prefix this <> "".
Proof.
  intros H. split; [reflexivity|]. split; [reflexivity|].
  induction H as [url token o|that event data _ IH|that room _ IH
                 |that room _ IH|that _ IH].
  - destruct o as [[|c p]|]; discriminate.
  - now rewrite emit_final_prefix.
  - now rewrite to_run.
  - destruct (getClientsInRoom_returns that room) as (ms & st & l & Hrun & _).
    now rewrite Hrun.
  - exact IH.
Qed.

End Claims.

(** * The claims on the example store *)

Lemma emit_without_target_witness :
  targetRoom demo_io = None
  /\ (emit "chat" VNull demo_io = Run (Ok tt) demo_io [LogWarn no_target_warning]
      /\ published (effects (emit "chat" VNull demo_io)) = []
      /\ targetRoom (final (emit "chat" VNull demo_io)) = None).
Proof.
  split; [reflexivity | apply emit_without_target; reflexivity].
Defined.

Lemma emit_publish_failure_witness :
  let this := demo_targeted "down" in
  let x := UpstashError "connection refused" in
  targetRoom this = Some "down" /\ "down" <> ""
  /\ JSON_stringify_array [VString "chat"; VNull] = Ok demo_payload
  /\ publish (redis this) (formatRoomName this "down") demo_payload = (Err x, [])
  /\ (outcome (emit "chat" VNull this) = Err x
      /\ effects (emit "chat" VNull this)
         = [RedisPublish (formatRoomName this "down") demo_payload;
            LogError "Failed to emit event" x]
      /\ targetRoom (final (emit "chat" VNull this)) = None).
Proof.
  intros this x.
  split; [reflexivity|]. split; [discriminate|].
  split; [reflexivity|]. split; [reflexivity|].
  apply (emit_publish_failure this "down" "chat" VNull demo_payload x []);
    [reflexivity | discriminate | reflexivity | reflexivity].
Defined.

Lemma to_empty_then_emit_counterexample :
  published (effects ((to "" ;; emit "chat" VNull) demo_io)) = []
  /\ ~ (exists payload,
          In (RedisPublish (prefix demo_io ++ ":") payload)
             (effects ((to "" ;; emit "chat" VNull) demo_io))).
Proof.
  split; [reflexivity|].
  intros [payload H]. vm_compute in H.
  destruct H as [H|[H|[]]]; discriminate H.
Qed.

Lemma last_to_wins_counterexample :
  published (effects ((to "lobby" ;; to "" ;; emit "chat" VNull) demo_io)) = []
  /\ ~ (exists payload,
          published (effects ((to "lobby" ;; to "" ;; emit "chat" VNull) demo_io))
          = [(formatRoomName demo_io "", payload)]).
Proof.
  split; [reflexivity|].
  intros [payload H]. vm_compute in H. discriminate H.
Qed.

Lemma last_to_wins_witness :
  "kitchen" <> ""
  /\ JSON_stringify_array [VString "chat"; VNull] = Ok demo_payload
  /\ (targetRoom (final ((to "lobby" ;; to "kitchen") demo_io)) = Some "kitchen"
      /\ published (effects ((to "lobby" ;; to "kitchen" ;; emit "chat" VNull) demo_io))
         = [(formatRoomName demo_io "kitchen", demo_payload)]
      /\ ("lobby" <> "kitchen" ->
          ~ In (formatRoomName demo_io "lobby")
               (map fst (published (effects ((to "lobby" ;; to "kitchen" ;;
                                              emit "chat" VNull) demo_io)))))).
Proof.
  split; [discriminate|]. split; [reflexivity|].
  apply (last_to_wins demo_io "lobby" "kitchen" "chat" VNull demo_payload);
    [discriminate | reflexivity].
Defined.

Lemma emit_wire_format_witness :
  let this := demo_targeted "lobby" in
  let data := demo_data in
  targetRoom this = Some "lobby" /\ "lobby" <> ""
  /\ representable data = true
  /\ exists payload,
       JSON_stringify (VArray [VString "chat"; data]) = Ok (Some payload)
       /\ published (effects (emit "chat" data this))
          = [(formatRoomName this "lobby", payload)]
       /\ JSON_parse payload = Some (VArray [VString "chat"; data]).
Proof.
  intros this data.
  split; [reflexivity|]. split; [discriminate|]. split; [reflexivity|].
  apply (emit_wire_format this "lobby" "chat" data);
    [reflexivity | discriminate | reflexivity].
Defined.

Lemma prefix_never_empty_witness :
  reachable demo_io
  /\ (prefix (IO_new "https://store.example" "token" (Some "")
               : IO (list (string * jsstring))) = "io"
      /\ prefix (IO_new "https://store.example" "token" None
                  : IO (list (string * jsstring))) = "io"
      /\ prefix demo_io <> "").
Proof.
  split; [apply reachable_new|].
  apply (prefix_never_empty demo_io "https://store.example" "token").
  apply reachable_new.
Defined.

(** ** The examples of the specification *)

Example lobby_chat :
  published (effects ((to "lobby" ;; emit "chat" (VObject [(js "msg", VString "hi")]))
                        demo_io))
  = [("io:lobby",
      (js "[" ++ QuoteJSONString "chat" ++ js ",{" ++ QuoteJSONString "msg"
          ++ js ":" ++ QuoteJSONString "hi" ++ js "}]")%list)].
Proof. reflexivity. Qed.

Example lobby_clients :
  outcome (getClientsInRoom "lobby" demo_io) = Ok ["c1"; "c2"].
Proof. reflexivity. Qed.

Example bigint_is_not_published :
  outcome ((to "lobby" ;; emit "chat" (VBigInt 3)) demo_io)
  = Err (TypeError "Do not know how to serialize a BigInt")
  /\ published (effects ((to "lobby" ;; emit "chat" (VBigInt 3)) demo_io)) = [].
Proof. split; reflexivity. Qed.

(** A payload that is not representable does not come back: [undefined] is
    written as null. *)
Example undefined_is_lost :
  JSON_stringify_array [VString "chat"; VUndefined] = Ok demo_payload
  /\ JSON_parse demo_payload = Some (VArray [VString "chat"; VNull]).
Proof. split; reflexivity. Qed.

(** [JSON.parse] skips white space, keeps the last value of a repeated key
    and enumerates array indices first. *)
Example parse_object_order :
  JSON_parse (js " { " ++ QuoteJSONString "b" ++ js " : 1 , " ++ QuoteJSONString "10"
              ++ js ":2," ++ QuoteJSONString "9" ++ js ":[ ]," ++ QuoteJSONString "b"
              ++ js ":-7 } ")%list
  = Some (VObject [(js "9", VArray []); (js "10", VNumber (integer 2));
                   (js "b", VNumber (integer (-7)))]).
Proof. reflexivity. Qed.

(** * Further properties of the relay *)

Lemma append_inv_tail (a b c : string) : a ++ c = b ++ c -> a = b.
Proof.
  revert b. induction a as [|x a IH]; intros [|y b] H; simpl in H.
  - reflexivity.
  - apply (f_equal String.length) in H. simpl in H.
    rewrite length_append in H. lia.
  - apply (f_equal String.length) in H. simpl in H.
    rewrite length_append in H. lia.
  - injection H as -> H. f_equal. now apply IH.
Qed.

Section RelayCalls.

Context {Store : Type} {client : Redis Store}.

Implicit Types (this that : IO Store) (room : string) (event : jsstring) (data : value).

Lemma to_then_published {B} (k : M Store B) this room :
  published (effects ((to room ;; k) this))
  = published (effects (k (mkIO (Some room) (redis this) (prefix this)))).
Proof.
  rewrite (seq_published _ _ _ _ _ _ (to_run this room)).
  destruct room; reflexivity.
Qed.

(** ** [emit], path by path *)

(** X1.  When [JSON.stringify] throws on the frame of a targeted [emit], the
    call logs the failure and throws the same exception without having
    called the store: the store is as before, the target is cleared. *)
Theorem emit_serialization_failure this room event data x :
  targetRoom this = Some room -> room <> "" ->
  JSON_stringify_array [VString event; data] = Err x ->
  emit event data this
  = Run (Err x) (mkIO None (redis this) (prefix this))
        [LogError "Failed to emit event" x].
Proof.
  intros Ht Hroom Hjs.
  destruct room as [|c room]; [congruence|].
  rewrite (emit_targeted this c room) by assumption.
  now rewrite Hjs.
Qed.

(** X2.  When the frame serializes and the store accepts the message, a
    targeted [emit] returns normally after one call to [publish] on the
    channel of the room followed by one success log that names the room and
    carries the frame; the store is in the state [publish] left and the
    target is cleared. *)
Theorem emit_success this room event data payload n st :
  targetRoom this = Some room -> room <> "" ->
  JSON_stringify_array [VString event; data] = Ok payload ->
  publish (redis this) (formatRoomName this room) payload = (Ok n, st) ->
  emit event data this
  = Run (Ok tt) (mkIO None st (prefix this))
        [RedisPublish (formatRoomName this room) payload;
         LogSuccess (emitted_message room) (VArray [VString event; data])].
Proof.
  intros Ht Hroom Hjs Hpub.
  destruct room as [|c room]; [congruence|].
  rewrite (emit_targeted this c room) by assumption.
  rewrite Hjs. cbv zeta. now rewrite Hpub.
Qed.

(** X3.  An exception leaves [emit] only if the instance had a non-empty
    target, and then it is the exception [JSON.stringify] threw on the frame
    or the one [publish] threw on the channel of the target. *)
Theorem emit_throws_only this event data x :
  outcome (emit event data this) = Err x ->
  exists room,
    targetRoom this = Some room /\ room <> ""
    /\ (JSON_stringify_array [VString event; data] = Err x
        \/ exists payload,
             JSON_stringify_array [VString event; data] = Ok payload
             /\ fst (publish (redis this) (formatRoomName this room) payload)
                = Err x).
Proof.
  intros H.
  destruct (targetRoom this) as [[|c room]|] eqn:Ht;
    try (rewrite emit_untargeted in H by auto; discriminate H).
  exists (String c room). split; [reflexivity|]. split; [discriminate|].
  rewrite (emit_targeted this c room) in H by assumption.
  destruct (JSON_stringify_array [VString event; data]) as [payload|x0].
  - right. exists payload. split; [reflexivity|].
    cbv zeta in H.
    destruct (publish _ _ _) as [[n|x0] st']; simpl in *; congruence.
  - left. simpl in H. congruence.
Qed.

(** X4.  Every call to [emit] logs exactly once: the error it throws, or
    else the success of a targeted call, or else the warning of a call
    without target. *)
Theorem emit_logs_once this event data :
  logged (effects (emit event data this))
  = match outcome (emit event data this), targetRoom this with
    | Err x, _ => [LogError "Failed to emit event" x]
    | Ok _, Some (String c room) =>
        [LogSuccess (emitted_message (String c room))
                    (VArray [VString event; data])]
    | Ok _, _ => [LogWarn no_target_warning]
    end.
Proof.
  destruct (targetRoom this) as [[|c room]|] eqn:Ht;
    try (rewrite emit_untargeted by auto; reflexivity).
  rewrite (emit_targeted this c room) by assumption.
  destruct (JSON_stringify_array [VString event; data]); [|reflexivity].
  cbv zeta. destruct (publish _ _ _) as [[n|x] st']; reflexivity.
Qed.

(** X5.  [emit] never asks the store for members and calls [publish] at
    most once; when it does not call it, the store is as before. *)
Theorem emit_store_calls this event data :
  queried (effects (emit event data this)) = []
  /\ List.length (published (effects (emit event data this))) <= 1
  /\ store_calls (effects (emit event data this))
     = map (fun cm => RedisPublish (fst cm) (snd cm))
           (published (effects (emit event data this)))
  /\ match published (effects (emit event data this)) with
     | [] => redis (final (emit event data this)) = redis this
     | (channel, message) :: _ =>
         redis (final (emit event data this))
         = snd (publish (redis this) channel message)
     end.
Proof.
  destruct (targetRoom this) as [[|c room]|] eqn:Ht;
    try (rewrite emit_untargeted by auto; simpl; auto).
  rewrite (emit_targeted this c room) by assumption.
  destruct (JSON_stringify_array [VString event; data]) as [payload|x];
    [|simpl; auto].
  cbv zeta. destruct (publish _ _ _) as [[n|x] st'] eqn:Hpub;
    simpl; rewrite Hpub; auto.
Qed.

(** ** The other methods and the store *)

(** X6.  [to] and [close] make no call to the store, leave it as it is and
    return normally; [getClientsInRoom] makes one call, the query of the
    members, and never publishes. *)
Theorem only_emit_publishes this room :
  (outcome (close this) = Ok tt /\ effects (close this) = []
   /\ final (close this) = this)
  /\ (outcome (to room this) = Ok tt
      /\ store_calls (effects (to room this)) = []
      /\ redis (final (to room this)) = redis this)
  /\ (published (effects (getClientsInRoom room this)) = []
      /\ store_calls (effects (getClientsInRoom room this))
         = [RedisSMembers (formatRoomName this room ++ ":clients")]
      /\ redis (final (getClientsInRoom room this))
         = snd (smembers (redis this) (formatRoomName this room ++ ":clients"))).
Proof.
  split; [repeat split|]. split.
  - rewrite to_run. destruct room; repeat split.
  - rewrite getClientsInRoom_run. cbv zeta.
    destruct (smembers _ _) as [[members|x] st']; repeat split.
Qed.

(** X7.  [close] releases nothing and changes nothing: a call placed before
    any other call, or between [to] and [emit], leaves the run as it is
    without it. *)
Theorem close_is_transparent {A} (m : M Store A) this room event data :
  (close ;; m) this = m this
  /\ (close ;; close) this = close this
  /\ (to room ;; close ;; emit event data) this
     = (to room ;; emit event data) this.
Proof.
  split; [|split].
  - unfold bind, close, try_catch, ret.
    destruct (m this) as [o f l]. reflexivity.
  - reflexivity.
  - unfold bind. rewrite to_run. cbn [final].
    unfold close, try_catch, ret.
    destruct (emit event data _) as [o f l]. reflexivity.
Qed.

(** X8.  The constructor keeps a non-empty prefix as it is given, builds the
    client from the token and the URL, and leaves the instance without
    target: an [emit] before any [to] publishes nothing. *)
Theorem constructor_keeps_prefix redisUrl redisToken p room event data :
  p <> "" ->
  let this := IO_new redisUrl redisToken (Some p) in
  prefix this = p
  /\ targetRoom this = None
  /\ redis this = Redis_new redisToken redisUrl
  /\ formatRoomName this room = p ++ ":" ++ room
  /\ emit event data this = Run (Ok tt) this [LogWarn no_target_warning].
Proof.
  intros Hp this. destruct p as [|c p]; [congruence|]. repeat split.
Qed.

(** ** Keys *)

(** X9.  On one instance two rooms with the same channel, or with the same
    key of members, are the same room. *)
Theorem keys_separate_rooms this room room' :
  formatRoomName this room = formatRoomName this room'
  \/ formatRoomName this room ++ ":clients"
     = formatRoomName this room' ++ ":clients" ->
  room = room'.
Proof.
  intros [H|H].
  - now apply (formatRoomName_inj this).
  - apply append_inv_tail in H. now apply (formatRoomName_inj this).
Qed.

(** X10.  The key that holds the members of a room is the channel of the
    room named by that room followed by ":clients": an [emit] to that room
    publishes on the key [getClientsInRoom] reads. *)
Theorem members_key_is_a_channel this room event data payload :
  JSON_stringify_array [VString event; data] = Ok payload ->
  map fst (published (effects ((to (room ++ ":clients") ;; emit event data) this)))
  = queried (effects (getClientsInRoom room this)).
Proof.
  intros Hjs.
  rewrite to_then_published, emit_published. cbn [targetRoom].
  assert (Hq : queried (effects (getClientsInRoom room this))
               = [formatRoomName this room ++ ":clients"]).
  { rewrite getClientsInRoom_run. cbv zeta.
    destruct (smembers _ _) as [[members|x] st']; reflexivity. }
  rewrite Hq, Hjs.
  destruct room as [|c room]; simpl; unfold formatRoomName; simpl;
    now rewrite ?append_assoc.
Qed.

(** X11.  What [to(room)] followed by [emit] publishes depends on the prefix
    of the instance only: neither the target left by earlier calls nor the
    state of the store changes the channel or the message. *)
Theorem cycle_ignores_history this that room event data :
  prefix this = prefix that ->
  published (effects ((to room ;; emit event data) this))
  = published (effects ((to room ;; emit event data) that)).
Proof.
  intros Hp.
  rewrite !to_then_published, !emit_published. cbn [targetRoom].
  unfold formatRoomName. cbn [prefix]. rewrite Hp.
  destruct room; reflexivity.
Qed.

End RelayCalls.

(** * Further properties of the wire format *)

Section WireFormat.

Context {Store : Type} {client : Redis Store}.

Implicit Types (this : IO Store) (room : string) (event : jsstring) (data : value).

(** X12.  Two frames of representable data with the same text are the same
    frame: a message determines the event name and the data it was emitted
    with. *)
Theorem frame_text_determines_frame event data event' data' payload :
  representable data = true -> representable data' = true ->
  JSON_stringify_array [VString event; data] = Ok payload ->
  JSON_stringify_array [VString event'; data'] = Ok payload ->
  event = event' /\ data = data'.
Proof.
  intros Hd Hd' Hjs Hjs'.
  assert (Hparse : forall e d p,
            representable d = true ->
            JSON_stringify_array [VString e; d] = Ok p ->
            JSON_parse p = Some (VArray [VString e; d])).
  { intros e d p Hrep Hp.
    assert (Hframe : representable (VArray [VString e; d]) = true)
      by (simpl; now rewrite Hrep).
    destruct (JSON_parse_stringify _ Hframe) as (text & Hser & Hback).
    unfold JSON_stringify in Hser.
    rewrite (stringify_array_text _ _ Hp) in Hser.
    now injection Hser as <-. }
  pose proof (Hparse _ _ _ Hd Hjs) as H1.
  pose proof (Hparse _ _ _ Hd' Hjs') as H2.
  rewrite H1 in H2. injection H2 as <- <-. split; reflexivity.
Qed.

(** X13.  A message [emit] publishes holds no code unit below the space:
    line breaks and control characters of the event name and of the data
    are escaped, the message is one line of text. *)
Theorem emit_publishes_one_line this event data :
  Forall (fun cm => no_control (snd cm) = true)
         (published (effects (emit event data this))).
Proof.
  rewrite emit_published.
  destruct (targetRoom this) as [[|c room]|]; try constructor.
  destruct (JSON_stringify_array [VString event; data]) as [payload|x] eqn:Hjs;
    constructor; [|constructor].
  simpl. apply (no_control_serialized (VArray [VString event; data])).
  now apply stringify_array_text.
Qed.

(** X14.  On a targeted [emit] the frame fails to serialize exactly when
    the data holds a BigInt: without one the call reaches the store and
    publishes once; with one it throws the TypeError of [JSON.stringify],
    logs it and calls nothing. *)
Theorem emit_serializes_unless_bigint this room event data :
  targetRoom this = Some room -> room <> "" ->
  if bigint_free data
  then exists payload,
         JSON_stringify_array [VString event; data] = Ok payload
         /\ published (effects (emit event data this))
            = [(formatRoomName this room, payload)]
  else emit event data this
       = Run (Err bigint_error) (mkIO None (redis this) (prefix this))
             [LogError "Failed to emit event" bigint_error].
Proof.
  intros Ht Hroom.
  destruct room as [|c room]; [congruence|].
  pose proof (stringify_frame_bigint event data) as H.
  destruct (bigint_free data).
  - destruct H as [payload Hjs]. exists payload. split; [exact Hjs|].
    now rewrite emit_published, Ht, Hjs.
  - rewrite (emit_targeted this c room) by assumption. now rewrite H.
Qed.

End WireFormat.

Section MissingData.

Context {Store : Type} {client : Redis Store}.

Implicit Types (this : IO Store) (room : string) (event : jsstring).

(** X15.  An event emitted with [undefined] as data is published as the
    event emitted with [null]: the message is the same, and what the
    consumer decodes is the event name followed by null. *)
Theorem emit_undefined_is_null this room event :
  targetRoom this = Some room -> room <> "" ->
  exists payload,
    published (effects (emit event VUndefined this))
    = [(formatRoomName this room, payload)]
    /\ published (effects (emit event VNull this))
       = [(formatRoomName this room, payload)]
    /\ JSON_parse payload = Some (VArray [VString event; VNull]).
Proof.
  intros Ht Hroom.
  destruct room as [|c room]; [congruence|].
  destruct (JSON_parse_stringify (VArray [VString event; VNull]) eq_refl)
    as (text & Hser & Hparse).
  exists text.
  assert (Hnull : JSON_stringify_array [VString event; VNull] = Ok text).
  { change (JSON_stringify (VArray [VString event; VNull]))
      with (result_bind (JSON_stringify_array [VString event; VNull])
              (fun s => Ok (Some s))) in Hser.
    destruct (JSON_stringify_array [VString event; VNull]);
      simpl in Hser; congruence. }
  assert (Hundef : JSON_stringify_array [VString event; VUndefined] = Ok text)
    by exact Hnull.
  rewrite !emit_published, Ht, Hnull, Hundef. repeat split. exact Hparse.
Qed.

End MissingData.

(** * The further properties on the example store *)

Lemma emit_serialization_failure_witness :
  let this := demo_targeted "lobby" in
  targetRoom this = Some "lobby" /\ "lobby" <> ""
  /\ JSON_stringify_array [VString "chat"; VBigInt 3] = Err bigint_error
  /\ emit "chat" (VBigInt 3) this
     = Run (Err bigint_error) (mkIO None (redis this) (prefix this))
           [LogError "Failed to emit event" bigint_error].
Proof.
  intros this.
  split; [reflexivity|]. split; [discriminate|]. split; [reflexivity|].
  apply (emit_serialization_failure this "lobby" "chat" (VBigInt 3) bigint_error);
    [reflexivity | discriminate | reflexivity].
Defined.

Lemma emit_success_witness :
  let this := demo_targeted "lobby" in
  targetRoom this = Some "lobby" /\ "lobby" <> ""
  /\ JSON_stringify_array [VString "chat"; VNull] = Ok demo_payload
  /\ publish (redis this) (formatRoomName this "lobby") demo_payload
     = (Ok 1%Z, [("io:lobby", demo_payload)])
  /\ emit "chat" VNull this
     = Run (Ok tt) (mkIO None [("io:lobby", demo_payload)] (prefix this))
           [RedisPublish (formatRoomName this "lobby") demo_payload;
            LogSuccess (emitted_message "lobby") (VArray [VString "chat"; VNull])].
Proof.
  intros this.
  split; [reflexivity|]. split; [discriminate|].
  split; [reflexivity|]. split; [reflexivity|].
  apply (emit_success this "lobby" "chat" VNull demo_payload 1%Z
           [("io:lobby", demo_payload)]);
    [reflexivity | discriminate | reflexivity | reflexivity].
Defined.

Lemma emit_throws_only_witness :
  let this := demo_targeted "down" in
  let x := UpstashError "connection refused" in
  outcome (emit "chat" VNull this) = Err x
  /\ exists room,
       targetRoom this = Some room /\ room <> ""
       /\ (JSON_stringify_array [VString "chat"; VNull] = Err x
           \/ exists payload,
                JSON_stringify_array [VString "chat"; VNull] = Ok payload
                /\ fst (publish (redis this) (formatRoomName this room) payload)
                   = Err x).
Proof.
  intros this x. split; [reflexivity|].
  apply (emit_throws_only this "chat" VNull x). reflexivity.
Defined.

Lemma constructor_keeps_prefix_witness :
  let this : IO (list (string * jsstring)) :=
    IO_new "https://store.example" "token" (Some "chat-app") in
  "chat-app" <> ""
  /\ (prefix this = "chat-app"
      /\ targetRoom this = None
      /\ redis this = Redis_new "token" "https://store.example"
      /\ formatRoomName this "lobby" = "chat-app" ++ ":" ++ "lobby"
      /\ emit "chat" VNull this = Run (Ok tt) this [LogWarn no_target_warning]).
Proof.
  intros this. split; [discriminate|].
  apply (constructor_keeps_prefix (Store := list (string * jsstring))
           "https://store.example" "token" "chat-app" "lobby" "chat" VNull).
  discriminate.
Defined.

Lemma keys_separate_rooms_witness :
  (formatRoomName demo_io "lobby" = formatRoomName demo_io "lobby"
   \/ formatRoomName demo_io "lobby" ++ ":clients"
      = formatRoomName demo_io "lobby" ++ ":clients")
  /\ "lobby" = "lobby".
Proof.
  split; [left; reflexivity|].
  apply (keys_separate_rooms demo_io "lobby" "lobby"). left. reflexivity.
Defined.

Lemma members_key_is_a_channel_witness :
  JSON_stringify_array [VString "chat"; VNull] = Ok demo_payload
  /\ map fst (published (effects ((to ("lobby" ++ ":clients") ;; emit "chat" VNull)
                                    demo_io)))
     = queried (effects (getClientsInRoom "lobby" demo_io)).
Proof.
  split; [reflexivity|].
  apply (members_key_is_a_channel demo_io "lobby" "chat" VNull demo_payload).
  reflexivity.
Defined.

Lemma cycle_ignores_history_witness :
  let that := final (emit "chat" VNull (demo_targeted "lobby")) in
  prefix demo_io = prefix that
  /\ published (effects ((to "kitchen" ;; emit "chat" VNull) demo_io))
     = published (effects ((to "kitchen" ;; emit "chat" VNull) that)).
Proof.
  intros that. split; [reflexivity|].
  apply (cycle_ignores_history demo_io that "kitchen" "chat" VNull).
  reflexivity.
Defined.

Lemma frame_text_determines_frame_witness :
  representable VNull = true
  /\ JSON_stringify_array [VString "chat"; VNull] = Ok demo_payload
  /\ (js "chat" = js "chat" /\ VNull = VNull).
Proof.
  split; [reflexivity|]. split; [reflexivity|].
  apply (frame_text_determines_frame "chat" VNull "chat" VNull demo_payload);
    reflexivity.
Defined.

Lemma emit_serializes_unless_bigint_witness :
  let this := demo_targeted "lobby" in
  targetRoom this = Some "lobby" /\ "lobby" <> ""
  /\ emit "chat" (VArray [VNumber (integer 1); VBigInt 2]) this
     = Run (Err bigint_error) (mkIO None (redis this) (prefix this))
           [LogError "Failed to emit event" bigint_error].
Proof.
  intros this.
  assert (Hne : "lobby" <> "") by discriminate.
  split; [reflexivity|]. split; [exact Hne|].
  exact (emit_serializes_unless_bigint this "lobby" "chat"
           (VArray [VNumber (integer 1); VBigInt 2]) eq_refl Hne).
Defined.

Lemma emit_undefined_is_null_witness :
  let this := demo_targeted "lobby" in
  targetRoom this = Some "lobby" /\ "lobby" <> ""
  /\ exists payload,
       published (effects (emit "ping" VUndefined this))
       = [(formatRoomName this "lobby", payload)]
       /\ published (effects (emit "ping" VNull this))
          = [(formatRoomName this "lobby", payload)]
       /\ JSON_parse payload = Some (VArray [VString "ping"; VNull]).
Proof.
  intros this. split; [reflexivity|]. split; [discriminate|].
  apply (emit_undefined_is_null this "lobby" "ping");
    [reflexivity | discriminate].
Defined.

(** ** Numbers and strings on the wire *)

#[local] Open Scope list_scope.

(** The texts of [Number::toString]: the shortest digits, in decimal
    notation up to 21 digits before the point and down to 6 zeros after it,
    in exponent notation beyond. *)
Example number_texts :
  map NumberToString
    [Finite false 6755399441055744 (-52); Finite false 4503599627370496 8;
     Finite false 7629394531250000 17; Finite false 5404319552844596 (-54);
     Finite false 1 (-1074); Finite true 7555786372591432 (-76);
     Finite false 7535204407491802 14; Finite false 4722366482869645 (-72);
     Finite false 9007199254740991 971; Zero true; integer (-40)]
  = [js "1.5"; js "1152921504606847000"; js "1e+21";
     js "0.30000000000000004"; js "5e-324"; js "-1e-7";
     js "123456789012345680000"; js "0.000001";
     js "1.7976931348623157e+308"; js "0"; js "-40"].
Proof. vm_compute. reflexivity. Qed.

(** [JSON.parse] reads every JSON number and rounds it to the nearest
    double: an exponent, a fraction, negative zero, an integer between two
    doubles, an overflow. *)
Example parse_numbers :
  JSON_parse (js "[1e2, 0.1, -0, 9007199254740993, 1.5E+0, 1e400]")
  = Some (VArray [VNumber (Finite false 7036874417766400 (-46));
                  VNumber (Finite false 7205759403792794 (-56));
                  VNumber (Zero true);
                  VNumber (Finite false 4503599627370496 1);
                  VNumber (Finite false 6755399441055744 (-52));
                  VNumber (Infinity false)]).
Proof. vm_compute. reflexivity. Qed.

(** The Numbers that are not representable do not come back: negative zero
    is written as 0, NaN and the infinities as null. *)
Example numbers_that_are_lost :
  JSON_stringify_array [VNumber (Zero true); VNumber NaN; VNumber (Infinity true)]
  = Ok (js "[0,null,null]")
  /\ JSON_parse (js "[0,null,null]")
     = Some (VArray [VNumber (Zero false); VNull; VNull]).
Proof. split; vm_compute; reflexivity. Qed.

(** A string is written unit by unit: characters outside ASCII and pairs of
    surrogates as they are, a surrogate without its partner escaped; an
    escape in the text is read as the unit it names. *)
Example string_texts :
  QuoteJSONString [233; 8364; 55357; 56832; 56832; 10]%N
  = ([34; 233; 8364; 55357; 56832]%N ++ js "\ude00\n" ++ [34%N])
  /\ JSON_parse ([34%N] ++ js "\u00e9\u20AC\ud83d\ude00" ++ [34%N])
     = Some (VString [233; 8364; 55357; 56832]%N).
Proof. split; vm_compute; reflexivity. Qed.

(** The example payload goes through the relay and comes back. *)
Example demo_data_round_trip :
  representable demo_data = true
  /\ match JSON_stringify_array [VString "chat"; demo_data] with
     | Ok payload => JSON_parse payload = Some (VArray [VString "chat"; demo_data])
     | Err _ => False
     end.
Proof. split; vm_compute; reflexivity. Qed.
